(** * Magnon band topology: the Chern-number engine of
      [Magnon-Implementation/Simulations/magnon_hamiltonian_sweep.py]

    The Python module builds a 2x2 Bloch Hamiltonian, asks numpy's Hermitian
    eigensolver for its eigenvectors, estimates the Berry curvature of the
    lower band on a plaquette and sums that curvature over a grid.

    Numbers.  Python floats are read as real numbers ([R]) and Python
    complex numbers as pairs of reals: every arithmetic operation of the
    script is the exact operation on [R].  Rounding, infinities and NaN are
    outside this development.

    The eigensolver [LA.eigh] is numpy code, not code of the script; it is a
    section variable, so each statement holds for every solver and every
    choice of eigenvector phase.  Where a statement needs the solver to be
    right, its contract ([band_solver]) is a hypothesis, and
    [eigh_closed_form] is one solver that meets it. *)

From Stdlib Require Import Reals Lra Lia ZArith List Sorted RNsatz.
Import ListNotations.

Open Scope R_scope.

(** ** Python complex numbers *)

Record C : Type := mkC { re : R; im : R }.

Declare Scope C_scope.
Delimit Scope C_scope with C.
Bind Scope C_scope with C.

(** a float used where a complex is expected *)
Definition RtoC (x : R) : C := mkC x 0.

(** the literal [1j] *)
Definition Ci : C := mkC 0 1.

Definition Cplus (z w : C) : C := mkC (re z + re w) (im z + im w).

Definition Cmult (z w : C) : C :=
  mkC (re z * re w - im z * im w) (re z * im w + im z * re w).

(** [np.conj] *)
Definition Cconj (z : C) : C := mkC (re z) (- im z).

(** [abs] of a complex number *)
Definition Cmod (z : C) : R := sqrt (re z * re z + im z * im z).

(** [np.exp] on a complex argument *)
Definition Cexp (z : C) : C :=
  mkC (exp (re z) * cos (im z)) (exp (re z) * sin (im z)).

Definition Copp (z : C) : C := mkC (- re z) (- im z).

Definition Cminus (z w : C) : C := Cplus z (Copp w).

Infix "+" := Cplus : C_scope.
Infix "*" := Cmult : C_scope.
Infix "-" := Cminus : C_scope.
Notation "- z" := (Copp z) : C_scope.

(** [atan2 y x], the angle numpy's complex logarithm takes as imaginary
    part; [atan2 0 0 = 0]. *)
Definition atan2 (y x : R) : R :=
  if Rlt_dec 0 x then atan (y / x)
  else if Rlt_dec x 0 then
    if Rle_dec 0 y then atan (y / x) + PI else atan (y / x) - PI
  else if Rlt_dec 0 y then PI / 2
  else if Rlt_dec y 0 then - (PI / 2)
  else 0.

(** [np.log] on a complex argument: [ln |z| + i * atan2 (im z) (re z)].
    (At [z = 0] numpy's real part is minus infinity; the script only reads
    the imaginary part.) *)
Definition Clog (z : C) : C := mkC (ln (Cmod z)) (atan2 (im z) (re z)).

(** [np.imag] *)
Definition np_imag (z : C) : R := im z.

(** ** numpy arrays of length two and of shape 2x2 *)

(** [np.array([x, y])] with float entries *)
Definition Vec2 : Type := (R * R)%type.

Definition np_dot (u v : Vec2) : R := fst u * fst v + snd u * snd v.

Definition vsub (u v : Vec2) : Vec2 := (fst u - fst v, snd u - snd v).

(** a complex column, [v[:, j]] *)
Definition CVec2 : Type := (C * C)%type.

(** [np.vdot a b]: the first argument is conjugated *)
Definition np_vdot (a b : CVec2) : C :=
  (Cconj (fst a) * fst b + Cconj (snd a) * snd b)%C.

(** a 2x2 array with [dtype=complex], row by row *)
Record Mat2 : Type := mkMat2 { m00 : C; m01 : C; m10 : C; m11 : C }.

(** [v[:, 0]] *)
Definition col0 (v : Mat2) : CVec2 := (m00 v, m10 v).

(** ** Module constants *)

(** [J = 1.0], Heisenberg exchange *)
Definition J : R := 1.

(** [S = 1], spin magnitude *)
Definition S : R := 1.

(** ** haldane_magnon_hamiltonian *)

Definition a1 : Vec2 := (1, 0).
Definition a2 : Vec2 := (-0.5, sqrt 3 / 2).
Definition a3 : Vec2 := (-0.5, - sqrt 3 / 2).

Definition b1 : Vec2 := vsub a1 a2.
Definition b2 : Vec2 := vsub a2 a3.
Definition b3 : Vec2 := vsub a3 a1.

(** nearest-neighbour structure factor, [f_k] *)
Definition f_k (kx ky : R) : C :=
  let k_vec : Vec2 := (kx, ky) in
  (Cexp (Ci * RtoC (np_dot k_vec a1))
   + Cexp (Ci * RtoC (np_dot k_vec a2))
   + Cexp (Ci * RtoC (np_dot k_vec a3)))%C.

(** next-nearest-neighbour structure factor, [g_k] *)
Definition g_k (kx ky : R) : R :=
  let k_vec : Vec2 := (kx, ky) in
  sin (np_dot k_vec b1) + sin (np_dot k_vec b2) + sin (np_dot k_vec b3).

Definition haldane_magnon_hamiltonian (kx ky D Bz : R) : Mat2 :=
  let t := J * S in
  let t2 := D * S in
  let h11 := Bz * S + 2 * t2 * g_k kx ky in
  let h22 := Bz * S - 2 * t2 * g_k kx ky in
  let h12 := (RtoC t * f_k kx ky)%C in
  mkMat2 (RtoC h11) h12 (Cconj h12) (RtoC h22).

(** ** Exceptions *)

(** the two exceptions the integrator can meet: [ValueError] from
    [np.linspace] on a negative count, [ZeroDivisionError] from a float
    division by the integer zero *)
Inductive PyExc : Type := ValueError | ZeroDivisionError.

Inductive result (A : Type) : Type :=
| Ok (a : A)
| Raise (e : PyExc).
Arguments Ok {A} a.
Arguments Raise {A} e.

Definition bind {A B : Type} (r : result A) (k : A -> result B) : result B :=
  match r with
  | Ok a => k a
  | Raise e => Raise e
  end.

Notation "x <- r ;; k" := (bind r (fun x => k))
  (at level 61, r at next level, right associativity).

(** a [for] loop whose body may raise, collecting one value per element *)
Fixpoint for_each {A B : Type} (body : A -> result B) (l : list A)
  : result (list B) :=
  match l with
  | [] => Ok []
  | a :: l' => b <- body a ;; bs <- for_each body l' ;; Ok (b :: bs)
  end.

(** ** np.linspace and slicing *)

(** overwrite the last element, [y[-1] = stop] *)
Fixpoint set_last (l : list R) (stop : R) : list R :=
  match l with
  | [] => []
  | [_] => [stop]
  | x :: l' => x :: set_last l' stop
  end.

(** [np.linspace(start, stop, num)] with the default [endpoint=True]:
    a negative count is rejected, a single sample is [start], otherwise
    sample [i] is [i * step + start] with [step = (stop - start) / (num - 1)]
    and the last sample is set to [stop]. *)
Definition np_linspace (start stop : R) (num : Z) : result (list R) :=
  if (num <? 0)%Z then Raise ValueError
  else
    let delta := stop - start in
    let idx := seq 0 (Z.to_nat num) in
    if (0 <? num - 1)%Z then
      let step := delta / IZR (num - 1) in
      Ok (set_last (map (fun i => INR i * step + start) idx) stop)
    else Ok (map (fun i => INR i * delta + start) idx).

(** [l[:-1]] *)
Definition drop_last (l : list R) : list R := removelast l.

(** Python's [x / n] for a float [x] and an [int] [n] *)
Definition py_div_int (x : R) (n : Z) : result R :=
  if (n =? 0)%Z then Raise ZeroDivisionError else Ok (x / IZR n).

(** lines 80-87 of [berry_curvature], as a function of the four eigenvector
    matrices *)
Definition plaquette (vec0 vec_x vec_y vec_xy : Mat2) (dk : R) : R :=
  let U1 := np_vdot (col0 vec0) (col0 vec_x) in
  let U2 := np_vdot (col0 vec_x) (col0 vec_xy) in
  let U3 := np_vdot (col0 vec_xy) (col0 vec_y) in
  let U4 := np_vdot (col0 vec_y) (col0 vec0) in
  np_imag (Clog (U1 * U2 * U3 * U4)%C) / dk ^ 2.

Section BandSolver.

(** [LA.eigh H]: the eigenvalues in ascending order and the matrix whose
    column [j] is an eigenvector for eigenvalue [j]. *)
Variable eigh : Mat2 -> (R * R) * Mat2.

(** the band-0 eigenvector the script reads at a wavevector:
    [LA.eigh(haldane_magnon_hamiltonian(kx, ky, D, Bz))[1][:, 0]] *)
Definition band0 (kx ky D Bz : R) : CVec2 :=
  col0 (snd (eigh (haldane_magnon_hamiltonian kx ky D Bz))).

(** ** berry_curvature

    The default [dk=1e-4] of the script is never used by [chern_number],
    which always passes its own [dk]; the spacing is an argument here.  A
    spacing of zero, where numpy divides by zero, is outside the statements
    below. *)

Definition berry_curvature (kx ky D Bz dk : R) : R :=
  let vec0 := snd (eigh (haldane_magnon_hamiltonian kx ky D Bz)) in
  let vec_x := snd (eigh (haldane_magnon_hamiltonian (kx + dk) ky D Bz)) in
  let vec_y := snd (eigh (haldane_magnon_hamiltonian kx (ky + dk) D Bz)) in
  let vec_xy :=
    snd (eigh (haldane_magnon_hamiltonian (kx + dk) (ky + dk) D Bz)) in
  let U1 := np_vdot (col0 vec0) (col0 vec_x) in
  let U2 := np_vdot (col0 vec_x) (col0 vec_xy) in
  let U3 := np_vdot (col0 vec_xy) (col0 vec_y) in
  let U4 := np_vdot (col0 vec_y) (col0 vec0) in
  let F := np_imag (Clog (U1 * U2 * U3 * U4)%C) / dk ^ 2 in
  F.

(** ** chern_number *)

(** the two nested loops: [chern += berry_curvature(kx, ky, D, Bz, dk=dk) * dk**2] *)
Definition chern_loop (kxs kys : list R) (D Bz dk : R) (chern : R) : R :=
  fold_left
    (fun acc kx =>
       fold_left
         (fun acc' ky => acc' + berry_curvature kx ky D Bz dk * dk ^ 2)
         kys acc)
    kxs chern.

Definition chern_number (D Bz : R) (nk : Z) : result R :=
  kx_vals <- np_linspace (- PI) PI nk ;;
  ky_vals <- np_linspace (- PI) PI nk ;;
  dk <- py_div_int (2 * PI) nk ;;
  Ok (chern_loop (drop_last kx_vals) (drop_last ky_vals) D Bz dk 0
      / (2 * PI)).

(** ** The parameter sweep, lines 110-117

    The script runs it once, on [D_vals], [Bz_vals] and [nk=30]; here the
    two ranges and the resolution are arguments.  Row [i], column [j] of the
    grid is [chern_number(D_vals[i], Bz_vals[j], nk)]. *)
Definition sweep (D_vals Bz_vals : list R) (nk : Z) : result (list (list R)) :=
  for_each (fun D => for_each (fun Bz => chern_number D Bz nk) Bz_vals) D_vals.

Definition Chern_grid : result (list (list R)) :=
  D_vals <- np_linspace (-2) 2 25 ;;
  Bz_vals <- np_linspace (-1) 1 25 ;;
  sweep D_vals Bz_vals 30.

End BandSolver.

(** the wavevectors at which [chern_number] calls [berry_curvature], in
    the order of its two loops *)
Definition chern_samples (nk : Z) : result (list (R * R)) :=
  kx_vals <- np_linspace (- PI) PI nk ;;
  ky_vals <- np_linspace (- PI) PI nk ;;
  _ <- py_div_int (2 * PI) nk ;;
  Ok (list_prod (drop_last kx_vals) (drop_last ky_vals)).

(** ** What the specification says, in its own words *)

(** "the sum of three complex phase factors over the honeycomb
    nearest-neighbor vectors" *)
Definition phase_factor_sum (vs : list Vec2) (kx ky : R) : C :=
  fold_right
    (fun a acc =>
       (mkC (cos (np_dot (kx, ky) a)) (sin (np_dot (kx, ky) a)) + acc)%C)
    (RtoC 0) vs.

(** "the sum of three sines over the next-nearest-neighbor displacement
    vectors" *)
Definition sine_sum (vs : list Vec2) (kx ky : R) : R :=
  fold_right (fun b acc => sin (np_dot (kx, ky) b) + acc) 0 vs.

(** the honeycomb vectors, written out *)
Definition nearest_neighbours : list Vec2 :=
  [(1, 0); (- (1 / 2), sqrt 3 / 2); (- (1 / 2), - (sqrt 3 / 2))].

Definition next_nearest_neighbours : list Vec2 :=
  [(3 / 2, - (sqrt 3 / 2)); (0, sqrt 3); (- (3 / 2), - (sqrt 3 / 2))].

(** "a uniform nk x nk grid of wavevectors spanning [-pi, pi)^2 with step
    dk = 2*pi/nk" *)
Definition uniform_axis (nk : Z) : list R :=
  map (fun i => - PI + INR i * (2 * PI / IZR nk)) (seq 0 (Z.to_nat nk)).

Definition uniform_grid (nk : Z) : list (R * R) :=
  list_prod (uniform_axis nk) (uniform_axis nk).

(** "inner product of band-0 eigenvectors": the bra is conjugated *)
Definition braket (u v : CVec2) : C :=
  (Cconj (fst u) * fst v + Cconj (snd u) * snd v)%C.

(** the link variables along a path of eigenvectors, closed by the link
    from its last element back to [first] *)
Fixpoint links_to (first : CVec2) (path : list CVec2) : list C :=
  match path with
  | [] => []
  | v :: rest =>
      match rest with
      | [] => [braket v first]
      | w :: _ => braket v w :: links_to first rest
      end
  end.

Definition cyclic_links (path : list CVec2) : list C :=
  match path with
  | [] => []
  | v :: _ => links_to v path
  end.

Definition Cprod (l : list C) : C := fold_right Cmult (RtoC 1) l.

(** "k -> k+delta*x -> k+delta*x+delta*y -> k+delta*y -> k" *)
Definition plaquette_cycle (kx ky delta : R) : list (R * R) :=
  [(kx, ky); (kx + delta, ky); (kx + delta, ky + delta); (kx, ky + delta)].

(** the plaquette value of the specification, for a band-0 eigenvector
    field [u] *)
Definition plaquette_value (u : R * R -> CVec2) (kx ky delta : R) : R :=
  im (Clog (Cprod (cyclic_links (map u (plaquette_cycle kx ky delta)))))
  / (delta * delta).


(** ** A closed-form Band Solver

    One solver that meets the contract of [LA.eigh] on Hermitian 2x2 input.
    Like numpy's default ([UPLO='L']) it reads the lower triangle: the real
    parts of the diagonal and entry [1,0]. *)

Definition norm2 (v : CVec2) : R :=
  re (fst v) * re (fst v) + im (fst v) * im (fst v)
  + (re (snd v) * re (snd v) + im (snd v) * im (snd v)).

Definition normalize (v : CVec2) : CVec2 :=
  (RtoC (/ sqrt (norm2 v)) * fst v, RtoC (/ sqrt (norm2 v)) * snd v)%C.

Definition eigh_closed_form (H : Mat2) : (R * R) * Mat2 :=
  let a := re (m00 H) in
  let d := re (m11 H) in
  let c := m10 H in
  let b := Cconj c in
  let rho := sqrt ((a - d) / 2 * ((a - d) / 2) + (re c * re c + im c * im c)) in
  let w0 := (a + d) / 2 - rho in
  let w1 := (a + d) / 2 + rho in
  if Req_dec_T rho 0 then
    ((w0, w1), mkMat2 (RtoC 1) (RtoC 0) (RtoC 0) (RtoC 1))
  else
    let v0 :=
      normalize (if Rle_dec a d then (RtoC (w0 - d), c) else (b, RtoC (w0 - a))) in
    let v1 :=
      normalize (if Rle_dec a d then (b, RtoC (w1 - a)) else (RtoC (w1 - d), c)) in
    ((w0, w1), mkMat2 (fst v0) (fst v1) (snd v0) (snd v1)).

(** ** The contract of the Band Solver

    What the script relies on from [LA.eigh] on a Hermitian matrix:
    eigenvalues in ascending order, and in column [j] a unit-norm
    eigenvector for eigenvalue [j]. *)

(** [v[:, 1]] *)
Definition col1 (v : Mat2) : CVec2 := (m01 v, m11 v).

Definition mat_vec (H : Mat2) (v : CVec2) : CVec2 :=
  (m00 H * fst v + m01 H * snd v, m10 H * fst v + m11 H * snd v)%C.

Definition scale (w : R) (v : CVec2) : CVec2 :=
  (RtoC w * fst v, RtoC w * snd v)%C.

Definition eigenpair (H : Mat2) (w : R) (v : CVec2) : Prop :=
  mat_vec H v = scale w v /\ norm2 v = 1.

Definition hermitian (H : Mat2) : Prop :=
  im (m00 H) = 0 /\ im (m11 H) = 0 /\ m01 H = Cconj (m10 H).

Definition solves (eigh : Mat2 -> (R * R) * Mat2) (H : Mat2) : Prop :=
  fst (fst (eigh H)) <= snd (fst (eigh H)) /\
  eigenpair H (fst (fst (eigh H))) (col0 (snd (eigh H))) /\
  eigenpair H (snd (fst (eigh H))) (col1 (snd (eigh H))).

Definition band_solver (eigh : Mat2 -> (R * R) * Mat2) : Prop :=
  forall H, hermitian H -> solves eigh H.

(** the two bands are apart at [H], as the solver reports them *)
Definition gap_open (eigh : Mat2 -> (R * R) * Mat2) (H : Mat2) : Prop :=
  fst (fst (eigh H)) < snd (fst (eigh H)).

(** the product of the four links around a plaquette, for the vectors at
    k, k+dk*x, k+dk*y and k+dk*x+dk*y *)
Definition link4 (v0 vx vy vxy : CVec2) : C :=
  (np_vdot v0 vx * np_vdot vx vxy * np_vdot vxy vy * np_vdot vy v0)%C.

(** the product [U1 * U2 * U3 * U4] of [berry_curvature] *)
Definition link_product (vec0 vec_x vec_y vec_xy : Mat2) : C :=
  link4 (col0 vec0) (col0 vec_x) (col0 vec_y) (col0 vec_xy).

(** the negative real axis, where the branch of the logarithm jumps *)
Definition on_branch_cut (z : C) : Prop := im z = 0 /\ re z < 0.

(** A plaquette away from gap closings, for DM strengths [D] and [-D] at
    field [Bz]: at each of its four corners the solver reports two distinct
    bands, and the link product at [D] is off the branch cut. *)
Definition plaquette_regular (eigh : Mat2 -> (R * R) * Mat2)
    (D Bz kx ky dk : R) : Prop :=
  (forall c, In c (plaquette_cycle kx ky dk) ->
     gap_open eigh (haldane_magnon_hamiltonian (fst c) (snd c) D Bz) /\
     gap_open eigh (haldane_magnon_hamiltonian (fst c) (snd c) (- D) Bz)) /\
  ~ on_branch_cut
      (link_product
         (snd (eigh (haldane_magnon_hamiltonian kx ky D Bz)))
         (snd (eigh (haldane_magnon_hamiltonian (kx + dk) ky D Bz)))
         (snd (eigh (haldane_magnon_hamiltonian kx (ky + dk) D Bz)))
         (snd (eigh (haldane_magnon_hamiltonian (kx + dk) (ky + dk) D Bz)))).

(** the projector [|v><v|] on a column *)
Definition proj (v : CVec2) : Mat2 :=
  mkMat2 (fst v * Cconj (fst v)) (fst v * Cconj (snd v))
         (snd v * Cconj (fst v)) (snd v * Cconj (snd v)).

(** the two diagonal entries exchanged *)
Definition swap_diag (P : Mat2) : Mat2 :=
  mkMat2 (m11 P) (m01 P) (m10 P) (m00 P).

(** the trace of a product of four matrices *)
Definition mat_mul (A B : Mat2) : Mat2 :=
  mkMat2 (m00 A * m00 B + m01 A * m10 B) (m00 A * m01 B + m01 A * m11 B)
         (m10 A * m00 B + m11 A * m10 B) (m10 A * m01 B + m11 A * m11 B).

Definition trace (A : Mat2) : C := (m00 A + m11 A)%C.

(** every entry multiplied by a real number *)
Definition mat_scale (r : R) (P : Mat2) : Mat2 :=
  mkMat2 (RtoC r * m00 P) (RtoC r * m01 P) (RtoC r * m10 P) (RtoC r * m11 P).

(** the Hamiltonian with its two diagonal entries exchanged: what reversing
    the sign of [D] does *)
Definition exchange_diag (H : Mat2) : Mat2 :=
  mkMat2 (m11 H) (m01 H) (m10 H) (m00 H).

(** ** Further notions about the solver and the Hamiltonian *)


(** a multiple of the identity added to a matrix: what the Zeeman term does *)
Definition shift_diag (B : R) (H : Mat2) : Mat2 :=
  mkMat2 (m00 H + RtoC B) (m01 H) (m10 H) (m11 H + RtoC B).

(** the entrywise complex conjugate *)
Definition mat_conj (H : Mat2) : Mat2 :=
  mkMat2 (Cconj (m00 H)) (Cconj (m01 H)) (Cconj (m10 H)) (Cconj (m11 H)).

(** the band splitting [sqrt ((2*t2*g)^2 + |t*f|^2)] at a wavevector *)
Definition band_splitting (kx ky D : R) : R :=
  sqrt (2 * (D * S) * g_k kx ky * (2 * (D * S) * g_k kx ky)
        + (J * S) * (J * S)
          * (re (f_k kx ky) * re (f_k kx ky) + im (f_k kx ky) * im (f_k kx ky))).

(** the solver reports two distinct bands at the four corners of a
    plaquette *)
Definition corners_gapped (eigh : Mat2 -> (R * R) * Mat2)
    (D Bz kx ky dk : R) : Prop :=
  forall c, In c (plaquette_cycle kx ky dk) ->
    gap_open eigh (haldane_magnon_hamiltonian (fst c) (snd c) D Bz).

(** * The other scripts

    The cavity and dynamics scripts use a handful of closed formulas.  They
    are embedded with the same reading of numbers, floats as real numbers:
    where the script's value underflows to 0.0 or rounds to 1.0 the value
    here is the exact real, and the statements about these scripts are those
    that do not hinge on the difference.  Each script is a module of its
    own, since the scripts reuse names ([kappa], [omega_c]). *)

(** division of Python complex numbers: [z / w] is [z * conj w / |w|^2] *)
Definition Cnorm2 (z : C) : R := re z * re z + im z * im z.

Definition Cinv (z : C) : C := mkC (re z / Cnorm2 z) (- im z / Cnorm2 z).

(** [z / w]; Python raises [ZeroDivisionError] when [w] is the complex
    zero *)
Definition py_cdiv (z w : C) : result C :=
  if Req_dec_T (re w) 0 then
    if Req_dec_T (im w) 0 then Raise ZeroDivisionError else Ok (z * Cinv w)%C
  else Ok (z * Cinv w)%C.

(** [x / y] on floats; Python raises [ZeroDivisionError] when [y] is zero *)
Definition py_div (x y : R) : result R :=
  if Req_dec_T y 0 then Raise ZeroDivisionError else Ok (x / y).

(** ** cavity_transmission_simulation.py *)

Module CavityTransmission.

Definition f_cavity : R := 5.0.
Definition kappa : R := 0.01.
Definition omega_c : R := 2 * PI * f_cavity.
Definition f_magnon_base : R := 5.0.
Definition gamma_m : R := 0.001.

(** [topology_coupling(C_send, C_recv, sigma=0.1)] *)
Definition topology_coupling (C_send C_recv sigma : R) : result R :=
  let delta_C := C_send - C_recv in
  q <- py_div delta_C sigma ;;
  Ok (exp (- (q ^ 2))).

(** [cavity_transmission(omega, C_send, C_recv, g0=0.05)] at one frequency
    [omega]; the script also passes an array of frequencies, which numpy
    treats entry by entry *)
Definition cavity_transmission (omega C_send C_recv g0 : R) : result R :=
  let omega_m := omega_c * (1 + 0.001 * C_recv) in
  tc <- topology_coupling C_send C_recv 0.1 ;;
  let g := g0 * tc in
  half_kappa <- py_cdiv (Ci * RtoC kappa) (RtoC 2) ;;
  G_c <- py_cdiv (RtoC 1) (RtoC (omega - omega_c) + half_kappa) ;;
  half_gamma <- py_cdiv (Ci * RtoC gamma_m) (RtoC 2) ;;
  G_m <- py_cdiv (RtoC 1) (RtoC (omega - omega_m) + half_gamma) ;;
  let Sigma := (RtoC (g ^ 2) * G_m)%C in
  inv_G_c <- py_cdiv (RtoC 1) G_c ;;
  G_c_dressed <- py_cdiv (RtoC 1) (inv_G_c - Sigma) ;;
  let S21 := (RtoC 1 - Ci * RtoC kappa * G_c_dressed)%C in
  Ok (Cmod S21 ^ 2).

End CavityTransmission.

(** ** cavity_ringdown_simulation.py *)

Module CavityRingdown.

Definition kappa : R := 0.01.
Definition gamma : R := 0.001.
Definition omega_c : R := 2 * PI * 5.0.
Definition omega_m : R := omega_c * 1.001.

(** [ringdown_dynamics(t, y, C_send, C_recv, g0=0.05)] with [y = [a, b]];
    the result is [[da_dt, db_dt]] *)
Definition ringdown_dynamics (t : R) (y : C * C) (C_send C_recv g0 : R)
  : C * C :=
  let a := fst y in
  let b := snd y in
  let delta_C := C_send - C_recv in
  let g := g0 * exp (- ((delta_C / 0.1) ^ 2)) in
  let da_dt :=
    (- Ci * RtoC omega_c * a - RtoC (kappa / 2) * a - Ci * RtoC g * b)%C in
  let db_dt :=
    (- Ci * RtoC omega_m * b - RtoC (gamma / 2) * b - Ci * RtoC g * a)%C in
  (da_dt, db_dt).

End CavityRingdown.

(** ** magnon_full_sweep_dynamics.py *)

Module FullSweep.

(** [axion_coupling_strength(C1, C2, E=1e3, B=0.1)] *)
Definition axion_coupling_strength (C1 C2 E B : R) : R :=
  let alpha := 1 / 137 in
  let C_avg := (C1 + C2) / 2.0 in
  let theta_eff := 2 * PI * C_avg in
  let radius := 0.5e-3 in
  let volume_factor := (4 / 3) * PI * radius ^ 3 in
  let prefactor := alpha / (4 * PI) * theta_eff * E * B * volume_factor in
  prefactor * 1e12.

(** the exceptions of [magnon_dynamics] *)
Inductive exc : Type := IndexError | ZeroDivisionError.

(** [int(x)] on a float: truncation towards zero *)
Definition py_int (x : R) : Z :=
  if Rle_dec 0 x then Int_part x else (- Int_part (- x))%Z.

(** [n % m] on Python ints; [ZeroDivisionError] when [m] is zero *)
Definition py_mod (n m : Z) : exc + Z :=
  if (m =? 0)%Z then inl ZeroDivisionError else inr (n mod m)%Z.

(** [message[i]] on a numpy array: a negative index counts from the end *)
Definition np_getitem (message : list R) (i : Z) : exc + R :=
  let len := Z.of_nat (length message) in
  if ((0 <=? i)%Z && (i <? len)%Z)%bool then inr (nth (Z.to_nat i) message 0)
  else if ((- len <=? i)%Z && (i <? 0)%Z)%bool
       then inr (nth (Z.to_nat (len + i)) message 0)
       else inl IndexError.

(** the suppression of mismatched receivers in [run_sweep] *)
Definition topo_factor (C_send C_recv : R) : R :=
  if Rlt_dec (Rabs (C_send - C_recv)) 0.1 then 1.0 else 1e-6.

(** the closure [magnon_dynamics(t, y)] of [run_sweep], with the variables
    it captures ([message], [J_base], [C_send], [C_recv]) as arguments *)
Definition magnon_dynamics (message : list R) (J_base C_send C_recv : R)
    (t : R) (y : R * R) : exc + (R * R) :=
  let phi_s := fst y in
  let phi_r := snd y in
  match py_mod (py_int (t / 5)) (Z.of_nat (length message)) with
  | inl e => inl e
  | inr bit_idx =>
      match np_getitem message bit_idx with
      | inl e => inl e
      | inr bit =>
          let drive := 0.5 * bit * sin (0.1 * t) in
          let J_eff :=
            J_base * topo_factor C_send C_recv
            * axion_coupling_strength C_send C_recv 1e3 0.1 in
          let dphi_s := -0.05 * phi_s + drive in
          let dphi_r := -0.05 * phi_r + J_eff * (phi_s - phi_r) in
          inr (dphi_s, dphi_r)
      end
  end.

(** [message = np.array([1, 0, 1, 1, 0, 1])] *)
Definition message : list R := [1; 0; 1; 1; 0; 1].

End FullSweep.

(** ** theta_modulation_bandwidth.py *)

Module ThetaBandwidth.

Definition k_B : R := 1.381e-23.
Definition T : R := 20e-3.

(** [T2_star(C)] *)
Definition T2_star (C : R) : R :=
  let T2_base := 100e-6 in
  let protection_factor := 1 + 0.5 * (C - 1) in
  T2_base * protection_factor.

(** [g_coupling(C)] *)
Definition g_coupling (C : R) : R :=
  let g_base := 1e-12 in
  g_base * C.

(** [np.logspace(start, stop, num)]: ten to the samples of [np.linspace] *)
Definition np_logspace (start stop : R) (num : Z) : result (list R) :=
  y <- np_linspace start stop num ;;
  Ok (map (fun e => Rpower 10 e) y).

(** the body of the loop of [calculate_bandwidth]: the value appended to
    [snr_values] for the frequency [f] *)
Definition snr_at (T2 g f : R) : R :=
  let omega := 2 * PI * f in
  let cycles_in_T2 := f * T2 in
  let signal_power :=
    if Rlt_dec 0.1 cycles_in_T2 then
      let effective_cycles := Rmin cycles_in_T2 10 in
      (g * omega * 0.1) ^ 2 * effective_cycles * exp (-1 / cycles_in_T2)
    else 0 in
  let noise_power := k_B * T * f in
  signal_power / (noise_power + 1e-30).

(** [xs[vals > thr]]: the elements of [xs] where the mask holds *)
Fixpoint np_mask (xs vals : list R) (thr : R) : list R :=
  match xs, vals with
  | x :: xs', v :: vals' =>
      if Rlt_dec thr v then x :: np_mask xs' vals' thr
      else np_mask xs' vals' thr
  | _, _ => []
  end.

(** [calculate_bandwidth(C, snr_threshold=3.0)]; the result is
    [(frequencies, snr_values, bandwidth, f_max)] *)
Definition calculate_bandwidth (C snr_threshold : R)
  : result (list R * list R * R * R) :=
  let T2 := T2_star C in
  let g := g_coupling C in
  frequencies <- np_logspace 2 7 100 ;;
  let snr_values := map (snr_at T2 g) frequencies in
  let usable := np_mask frequencies snr_values snr_threshold in
  if (0 <? length usable)%nat then
    let bandwidth := last usable 0 - hd 0 usable in
    let f_max := last usable 0 in
    Ok (frequencies, snr_values, bandwidth, f_max)
  else
    Ok (frequencies, snr_values, 0, 0).

(** [np.mean] and [np.log2] *)
Definition np_mean (l : list R) : R := fold_right Rplus 0 l / INR (length l).

Definition np_log2 (x : R) : R := ln x / ln 2.

(** [estimate_bit_rate(C_chern)] *)
Definition estimate_bit_rate (C_chern : R) : result R :=
  r <- calculate_bandwidth C_chern 3.0 ;;
  let snrs := snd (fst (fst r)) in
  let bw := snd (fst r) in
  if Rlt_dec 0 bw then
    let avg_snr := np_mean (np_mask snrs snrs 3) in
    let bit_rate := bw * np_log2 (1 + avg_snr) in
    Ok bit_rate
  else Ok 0.

(** [optimal_frequency(C)] *)
Definition optimal_frequency (C : R) : result R :=
  let T2 := T2_star C in
  py_div 2 T2.

End ThetaBandwidth.

(** * Properties *)

(** ** Complex arithmetic *)

Lemma C_eq (z w : C) : re z = re w -> im z = im w -> z = w.
Proof. destruct z, w; simpl; intros -> ->; reflexivity. Qed.

Ltac Csolve := intros; apply C_eq; simpl; try ring; try lra.

Lemma C_ring_theory :
  ring_theory (RtoC 0) (RtoC 1) Cplus Cmult Cminus Copp eq.
Proof. constructor; Csolve. Qed.

Add Ring C_ring : C_ring_theory.

Lemma Cconj_involutive (z : C) : Cconj (Cconj z) = z.
Proof. Csolve. Qed.

Lemma Cconj_mult (z w : C) : Cconj (z * w) = (Cconj z * Cconj w)%C.
Proof. Csolve. Qed.

Lemma Cconj_plus (z w : C) : Cconj (z + w) = (Cconj z + Cconj w)%C.
Proof. Csolve. Qed.

Lemma Cexp_imaginary (x : R) : Cexp (Ci * RtoC x) = mkC (cos x) (sin x).
Proof.
  unfold Cexp; simpl.
  replace (0 * x - 1 * 0) with 0 by ring.
  replace (0 * 0 + 1 * x) with x by ring.
  rewrite exp_0. Csolve.
Qed.

(** ** The Bloch Hamiltonian *)

Lemma f_k_phase_factors (kx ky : R) :
  f_k kx ky = phase_factor_sum nearest_neighbours kx ky.
Proof.
  unfold f_k, phase_factor_sum, nearest_neighbours, a1, a2, a3, np_dot; simpl.
  rewrite !Cexp_imaginary.
  replace (kx * -0.5 + ky * (sqrt 3 / 2))
    with (kx * - (1 / 2) + ky * (sqrt 3 / 2)) by lra.
  replace (kx * -0.5 + ky * (- sqrt 3 / 2))
    with (kx * - (1 / 2) + ky * - (sqrt 3 / 2)) by lra.
  Csolve.
Qed.

Lemma g_k_sines (kx ky : R) :
  g_k kx ky = sine_sum next_nearest_neighbours kx ky.
Proof.
  unfold g_k, sine_sum, next_nearest_neighbours, b1, b2, b3, vsub, a1, a2, a3,
    np_dot; simpl.
  replace (kx * (1 - -0.5) + ky * (0 - sqrt 3 / 2))
    with (kx * (3 / 2) + ky * - (sqrt 3 / 2)) by lra.
  replace (kx * (-0.5 - -0.5) + ky * (sqrt 3 / 2 - - sqrt 3 / 2))
    with (kx * 0 + ky * sqrt 3) by lra.
  replace (kx * (-0.5 - 1) + ky * (- sqrt 3 / 2 - 0))
    with (kx * - (3 / 2) + ky * - (sqrt 3 / 2)) by lra.
  ring.
Qed.

(** C5: at every wavevector and for all parameters the matrix built by
    [haldane_magnon_hamiltonian] has diagonal entries [Bz*S + 2*t2*g(k)] and
    [Bz*S - 2*t2*g(k)] with [t2 = D*S] and [g] the sum of three sines over
    the next-nearest-neighbour vectors, and off-diagonal entries [t*f(k)]
    and its conjugate with [t = J*S] and [f] the sum of three phase factors
    over the nearest-neighbour vectors. *)
Theorem haldane_magnon_hamiltonian_entries (kx ky D Bz : R) :
  let H := haldane_magnon_hamiltonian kx ky D Bz in
  let t := J * S in
  let t2 := D * S in
  let g := sine_sum next_nearest_neighbours kx ky in
  let f := phase_factor_sum nearest_neighbours kx ky in
  m00 H = RtoC (Bz * S + 2 * t2 * g) /\
  m11 H = RtoC (Bz * S - 2 * t2 * g) /\
  m01 H = (RtoC t * f)%C /\
  m10 H = Cconj (m01 H).
Proof.
  cbv zeta. unfold haldane_magnon_hamiltonian; cbn [m00 m01 m10 m11].
  rewrite <- g_k_sines, <- f_k_phase_factors.
  repeat split; reflexivity.
Qed.

(** C6: the matrix built by [haldane_magnon_hamiltonian] is Hermitian: each
    off-diagonal entry is the conjugate of the other and both diagonal
    entries are real. *)
Theorem haldane_magnon_hamiltonian_hermitian (kx ky D Bz : R) :
  let H := haldane_magnon_hamiltonian kx ky D Bz in
  m01 H = Cconj (m10 H) /\ m10 H = Cconj (m01 H) /\
  im (m00 H) = 0 /\ im (m11 H) = 0.
Proof.
  cbv zeta. unfold haldane_magnon_hamiltonian; cbn [m00 m01 m10 m11].
  rewrite Cconj_involutive. repeat split; reflexivity.
Qed.

(** ** The branch of the logarithm *)

Lemma atan2_range (y x : R) : - PI < atan2 y x <= PI.
Proof.
  pose proof PI_RGT_0 as Hpi.
  unfold atan2.
  destruct (Rlt_dec 0 x) as [Hx | Hx].
  - pose proof (atan_bound (y / x)); lra.
  - destruct (Rlt_dec x 0) as [Hx' | Hx'].
    + pose proof (atan_bound (y / x)) as Hb.
      destruct (Rle_dec 0 y) as [Hy | Hy].
      * assert (y / x <= 0).
        { pose proof (Rinv_lt_0_compat x Hx'). unfold Rdiv; nra. }
        assert (atan (y / x) <= 0).
        { destruct (Req_dec (y / x) 0) as [-> | Hne].
          - rewrite atan_0; lra.
          - left; rewrite <- atan_0; apply atan_increasing; lra. }
        lra.
      * assert (0 < y / x).
        { pose proof (Rinv_lt_0_compat x Hx'). unfold Rdiv; nra. }
        assert (0 < atan (y / x))
          by (rewrite <- atan_0; apply atan_increasing; lra).
        lra.
    + destruct (Rlt_dec 0 y); [lra|].
      destruct (Rlt_dec y 0); lra.
Qed.

Lemma Clog_branch (z : C) : - PI < np_imag (Clog z) <= PI.
Proof. apply atan2_range. Qed.

Lemma sqrt_one_plus_ratio (y x : R) :
  x <> 0 -> sqrt (1 + (y / x)²) = sqrt (x * x + y * y) / Rabs x.
Proof.
  intros Hx.
  assert (Hax : 0 < Rabs x) by (apply Rabs_pos_lt; exact Hx).
  assert (Hr : 0 <= sqrt (x * x + y * y)) by apply sqrt_pos.
  assert (Hxx : Rabs x * Rabs x = x * x).
  { unfold Rabs; destruct (Rcase_abs x); ring. }
  apply sqrt_lem_1.
  - unfold Rsqr; nra.
  - apply Rmult_le_pos; [exact Hr | left; apply Rinv_0_lt_compat; exact Hax].
  - unfold Rsqr, Rdiv.
    replace (sqrt (x * x + y * y) * / Rabs x * (sqrt (x * x + y * y) * / Rabs x))
      with (sqrt (x * x + y * y) * sqrt (x * x + y * y) * / (Rabs x * Rabs x))
      by (field; lra).
    rewrite sqrt_sqrt by nra. rewrite Hxx. field; exact Hx.
Qed.

Lemma atan2_polar (y x : R) :
  x <> 0 \/ y <> 0 ->
  cos (atan2 y x) = x / sqrt (x * x + y * y) /\
  sin (atan2 y x) = y / sqrt (x * x + y * y).
Proof.
  intros Hnz.
  assert (Hr : 0 < sqrt (x * x + y * y)) by (apply sqrt_lt_R0; nra).
  unfold atan2.
  destruct (Rlt_dec 0 x) as [Hx | Hx].
  - rewrite cos_atan, sin_atan, sqrt_one_plus_ratio by lra.
    rewrite (Rabs_right x) by lra. split; field; lra.
  - destruct (Rlt_dec x 0) as [Hx' | Hx'].
    + destruct (Rle_dec 0 y) as [Hy | Hy].
      * rewrite cos_plus, sin_plus, cos_PI, sin_PI, cos_atan, sin_atan,
          sqrt_one_plus_ratio by lra.
        rewrite (Rabs_left x) by lra. split; field; lra.
      * rewrite cos_minus, sin_minus, cos_PI, sin_PI, cos_atan, sin_atan,
          sqrt_one_plus_ratio by lra.
        rewrite (Rabs_left x) by lra. split; field; lra.
    + assert (x = 0) by lra; subst x.
      replace (0 * 0 + y * y) with (y * y) in * by ring.
      destruct (Rlt_dec 0 y) as [Hy | Hy].
      * rewrite cos_PI2, sin_PI2, sqrt_square by lra. split; field; lra.
      * destruct (Rlt_dec y 0) as [Hy' | Hy']; [|lra].
        rewrite cos_neg, sin_neg, cos_PI2, sin_PI2.
        replace (y * y) with ((- y) * (- y)) by ring.
        rewrite sqrt_square by lra. split; field; lra.
Qed.

(** [Clog] is a logarithm: exponentiating gives the argument back. *)
Lemma Cexp_Clog (z : C) : z <> RtoC 0 -> Cexp (Clog z) = z.
Proof.
  intros Hz.
  assert (Hnz : re z <> 0 \/ im z <> 0).
  { destruct (Req_dec (re z) 0) as [H0 | H0]; [|left; exact H0].
    right; intros H1; apply Hz; apply C_eq; simpl; assumption. }
  destruct (atan2_polar (im z) (re z) Hnz) as [Hc Hs].
  assert (Hr : 0 < sqrt (re z * re z + im z * im z))
    by (apply sqrt_lt_R0; nra).
  unfold Cexp, Clog, Cmod; cbn [re im].
  rewrite exp_ln by exact Hr.
  rewrite Hc, Hs. apply C_eq; cbn [re im]; field; lra.
Qed.

(** ** Link variables and gauge *)


Lemma np_vdot_braket (u v : CVec2) : np_vdot u v = braket u v.
Proof. reflexivity. Qed.



Section Curvature.

Variable eigh : Mat2 -> (R * R) * Mat2.

(** C3: for a spacing [delta > 0], [berry_curvature] returns the plaquette
    value: the imaginary part of the logarithm of the product of the four
    link variables of the band-0 eigenvectors taken around
    k -> k+delta*x -> k+delta*x+delta*y -> k+delta*y -> k, divided by
    [delta^2]; that imaginary part lies in (-pi, pi]. *)
Theorem berry_curvature_plaquette (kx ky D Bz delta : R) :
  0 < delta ->
  let u := fun k : R * R => band0 eigh (fst k) (snd k) D Bz in
  let phase :=
    im (Clog (Cprod (cyclic_links (map u (plaquette_cycle kx ky delta))))) in
  berry_curvature eigh kx ky D Bz delta = plaquette_value u kx ky delta /\
  berry_curvature eigh kx ky D Bz delta = phase / (delta * delta) /\
  - PI < phase <= PI.
Proof.
  intros Hd u phase.
  assert (Heq : berry_curvature eigh kx ky D Bz delta = phase / (delta * delta)).
  { unfold berry_curvature, plaquette, phase, np_imag.
    unfold plaquette_cycle, cyclic_links, links_to, Cprod, u, band0;
      cbn [map fold_right fst snd].
    unfold braket, np_vdot.
    replace (delta ^ 2) with (delta * delta) by ring.
    do 3 f_equal. ring. }
  split; [exact Heq|]. split; [exact Heq|].
  apply atan2_range.
Qed.


(** C10: for a spacing [delta > 0] the value returned by [berry_curvature]
    is at most [pi / delta^2] in absolute value, so one plaquette weighted by
    [dk^2] contributes at most [pi * dk^2 / delta^2]. *)
Theorem berry_curvature_bounded (kx ky D Bz delta dk : R) :
  0 < delta ->
  Rabs (berry_curvature eigh kx ky D Bz delta) <= PI / delta ^ 2 /\
  Rabs (berry_curvature eigh kx ky D Bz delta * dk ^ 2)
  <= PI * dk ^ 2 / delta ^ 2.
Proof.
  intros Hd.
  assert (Hd2 : 0 < delta ^ 2) by (apply pow_lt; exact Hd).
  assert (Hinv : 0 < / delta ^ 2) by (apply Rinv_0_lt_compat; exact Hd2).
  assert (Hb : Rabs (berry_curvature eigh kx ky D Bz delta) <= PI / delta ^ 2).
  { unfold berry_curvature, plaquette; cbv zeta.
    match goal with |- Rabs (np_imag (Clog ?z) / _) <= _ =>
      pose proof (Clog_branch z) as Hr; set (th := np_imag (Clog z)) in * end.
    unfold Rdiv. rewrite Rabs_mult, (Rabs_right (/ delta ^ 2)) by lra.
    apply Rmult_le_compat_r; [lra|].
    apply Rabs_le; lra. }
  split; [exact Hb|].
  rewrite Rabs_mult.
  assert (Hdk : 0 <= dk ^ 2) by (simpl; nra).
  rewrite (Rabs_right (dk ^ 2)) by lra.
  unfold Rdiv in *. 
  replace (PI * dk ^ 2 * / delta ^ 2) with (PI * / delta ^ 2 * dk ^ 2) by ring.
  apply Rmult_le_compat_r; assumption.
Qed.

End Curvature.

(** ** The grid of the integrator *)

Lemma removelast_set_last (l : list R) (x : R) :
  removelast (set_last l x) = removelast l.
Proof.
  induction l as [|a [|b l'] IH]; try reflexivity.
  change (set_last (a :: b :: l') x) with (a :: set_last (b :: l') x).
  change (removelast (a :: b :: l')) with (a :: removelast (b :: l')).
  rewrite <- IH. destruct l'; reflexivity.
Qed.

Lemma removelast_map_seq (f : nat -> R) (n : nat) :
  removelast (map f (seq 0 (Datatypes.S n))) = map f (seq 0 n).
Proof.
  rewrite seq_S, map_app. cbn [map]. apply removelast_last.
Qed.

(** For [nk >= 2] the samples kept on one axis are the first [nk - 1] points
    of a grid whose step is [2*pi / (nk - 1)]. *)
Lemma linspace_axis (nk : Z) :
  (2 <= nk)%Z ->
  exists vals,
    np_linspace (- PI) PI nk = Ok vals /\
    drop_last vals
    = map (fun i => INR i * ((PI - - PI) / IZR (nk - 1)) + - PI)
        (seq 0 (Z.to_nat (nk - 1))).
Proof.
  intros Hnk. unfold np_linspace.
  destruct (Z.ltb_spec nk 0) as [Hneg | _]; [lia|].
  destruct (Z.ltb_spec 0 (nk - 1)) as [_ | Hle]; [|lia].
  eexists; split; [reflexivity|].
  unfold drop_last. rewrite removelast_set_last.
  replace (Z.to_nat nk) with (Datatypes.S (Z.to_nat (nk - 1))) by lia.
  apply removelast_map_seq.
Qed.

Lemma fold_left_list_prod {A B T : Type} (f : T -> A -> B -> T)
    (xs : list A) (ys : list B) (acc : T) :
  fold_left (fun a x => fold_left (fun a' y => f a' x y) ys a) xs acc
  = fold_left (fun a p => f a (fst p) (snd p)) (list_prod xs ys) acc.
Proof.
  revert acc; induction xs as [|x xs IH]; intros acc; [reflexivity|].
  cbn [fold_left list_prod]. rewrite fold_left_app, IH. f_equal.
  generalize acc; clear.
  induction ys as [|y ys IHy]; intros acc; [reflexivity|].
  cbn [map fold_left fst snd]. apply IHy.
Qed.

Section Integrator.

Variable eigh : Mat2 -> (R * R) * Mat2.

(** The loops of [chern_number] visit exactly [chern_samples], in order. *)
Lemma chern_number_over_samples (D Bz : R) (nk : Z) :
  chern_number eigh D Bz nk
  = pts <- chern_samples nk ;;
    dk <- py_div_int (2 * PI) nk ;;
    Ok (fold_left
          (fun acc k =>
             acc + berry_curvature eigh (fst k) (snd k) D Bz dk * dk ^ 2)
          pts 0
        / (2 * PI)).
Proof.
  unfold chern_number, chern_samples.
  destruct (np_linspace (- PI) PI nk) as [vals|e]; [|reflexivity].
  cbn [bind].
  destruct (py_div_int (2 * PI) nk) as [dk|e]; [|reflexivity].
  cbn [bind]. unfold chern_loop.
  rewrite (fold_left_list_prod
             (fun acc kx ky => acc + berry_curvature eigh kx ky D Bz dk * dk ^ 2)).
  reflexivity.
Qed.

(** For [nk >= 2] the integrator samples [(nk - 1)^2] wavevectors, spaced by
    [2*pi / (nk - 1)] on each axis. *)
Lemma chern_samples_shape (nk : Z) :
  (2 <= nk)%Z ->
  let axis :=
    map (fun i => INR i * ((PI - - PI) / IZR (nk - 1)) + - PI)
      (seq 0 (Z.to_nat (nk - 1))) in
  chern_samples nk = Ok (list_prod axis axis) /\
  length (list_prod axis axis) = (Z.to_nat (nk - 1) * Z.to_nat (nk - 1))%nat.
Proof.
  intros Hnk axis. split.
  - unfold chern_samples.
    destruct (linspace_axis nk Hnk) as [vals [-> Hvals]].
    cbn [bind]. unfold py_div_int.
    destruct (Z.eqb_spec nk 0) as [H0 | _]; [lia|].
    cbn [bind]. rewrite Hvals. reflexivity.
  - rewrite length_prod. unfold axis. rewrite length_map, length_seq.
    reflexivity.
Qed.

Lemma chern_samples_two : chern_samples 2 = Ok [(- PI, - PI)].
Proof.
  destruct (chern_samples_shape 2 ltac:(lia)) as [-> _].
  change (2 - 1)%Z with 1%Z. change (Z.to_nat 1) with 1%nat.
  cbn [seq map list_prod app].
  replace (INR 0 * ((PI - - PI) / 1) + - PI) with (- PI)
    by (simpl; field).
  reflexivity.
Qed.

(** C1: at [nk = 2] the loops of [chern_number] call [berry_curvature]
    once, at (-pi, -pi) with spacing pi, where the uniform 2 x 2 grid of
    step pi has four wavevectors. *)
Theorem chern_number_grid_at_two (D Bz : R) :
  chern_samples 2 = Ok [(- PI, - PI)] /\
  uniform_grid 2 = [(- PI, - PI); (- PI, 0); (0, - PI); (0, 0)] /\
  chern_number eigh D Bz 2
  = Ok ((0 + berry_curvature eigh (- PI) (- PI) D Bz PI * PI ^ 2) / (2 * PI)).
Proof.
  pose proof chern_samples_two as Hs.
  split; [exact Hs|]. split.
  - unfold uniform_grid, uniform_axis.
    change (Z.to_nat 2) with 2%nat.
    cbn [seq map list_prod app].
    replace (- PI + INR 0 * (2 * PI / 2)) with (- PI) by (simpl; field).
    replace (- PI + INR 1 * (2 * PI / 2)) with 0 by (simpl; field).
    reflexivity.
  - rewrite chern_number_over_samples, Hs. cbn [bind].
    unfold py_div_int. cbn [Z.eqb bind fold_left fst snd].
    replace (2 * PI / 2) with PI by field.
    reflexivity.
Qed.

(** With [nk = 1] both loops are empty. *)
Lemma chern_number_one (D Bz : R) : chern_number eigh D Bz 1 = Ok 0.
Proof.
  unfold chern_number, np_linspace, py_div_int, drop_last, chern_loop.
  change (1 <? 0)%Z with false. change (0 <? 1 - 1)%Z with false.
  change (1 =? 0)%Z with false. change (Z.to_nat 1) with 1%nat.
  cbn [seq map bind removelast fold_left].
  f_equal. unfold Rdiv. apply Rmult_0_l.
Qed.

(** C2, as the code has it: [chern_number] validates nothing.  With
    [nk = 1] it raises no error: the grid left after dropping the last point
    is empty, no curvature is evaluated and 0 is returned.  With [nk = 0]
    the division [2*pi/nk] raises [ZeroDivisionError], and with [nk < 0]
    [np.linspace] raises [ValueError]. *)
Theorem chern_number_below_two (D Bz : R) (nk : Z) :
  (nk < 2)%Z ->
  chern_number eigh D Bz nk
  = if (nk =? 1)%Z then Ok 0
    else if (nk =? 0)%Z then Raise ZeroDivisionError
    else Raise ValueError.
Proof.
  intros Hnk.
  destruct (Z.eqb_spec nk 1) as [-> | H1]; [apply chern_number_one|].
  destruct (Z.eqb_spec nk 0) as [-> | H0]; [reflexivity|].
  unfold chern_number, np_linspace.
  destruct (Z.ltb_spec nk 0) as [_ | Hge]; [reflexivity | lia].
Qed.

(** C9, as the code has it: the sweep validates nothing.  On an empty
    D-range it calls the integrator never and yields a grid with no row; on
    an empty Bz-range it yields one empty row per D value.  No error is
    raised. *)
Theorem sweep_empty_range (D_vals Bz_vals : list R) (nk : Z) :
  sweep eigh [] Bz_vals nk = Ok [] /\
  sweep eigh D_vals [] nk = Ok (map (fun _ => []) D_vals).
Proof.
  split; [reflexivity|].
  unfold sweep. induction D_vals as [|D Ds IH]; [reflexivity|].
  cbn [for_each bind map] in *. rewrite IH. reflexivity.
Qed.

End Integrator.

(** ** Eigenvectors of a Hermitian 2x2 matrix *)

(** The real form of [H v = w v], [|v| = 1] for
    [H = [[a, b], [conj b, d]]], [b = br + i bi], [v = (x, y)]: the
    projector on [v] is fixed by [H] and [w]. *)
Lemma projector_identities (a d w xr xi yr yi br bi : R) :
  a * xr + (br * yr - bi * yi) = w * xr ->
  a * xi + (br * yi + bi * yr) = w * xi ->
  (br * xr + bi * xi) + d * yr = w * yr ->
  (br * xi - bi * xr) + d * yi = w * yi ->
  xr * xr + xi * xi + (yr * yr + yi * yi) = 1 ->
  (2 * w - a - d) * (xr * xr + xi * xi) = w - d /\
  (2 * w - a - d) * (yr * yr + yi * yi) = w - a /\
  (2 * w - a - d) * (xr * yr + xi * yi) = br /\
  (2 * w - a - d) * (xi * yr - xr * yi) = bi /\
  (w - a) * (w - d) = br * br + bi * bi.
Proof.
  intros E1 E2 E3 E4 N. repeat split; nsatz.
Qed.

(** Unfolding [eigenpair] into real equations. *)
Lemma eigenpair_real (H : Mat2) (w : R) (v : CVec2) :
  hermitian H -> eigenpair H w v ->
  let a := re (m00 H) in
  let d := re (m11 H) in
  let br := re (m01 H) in
  let bi := im (m01 H) in
  let xr := re (fst v) in
  let xi := im (fst v) in
  let yr := re (snd v) in
  let yi := im (snd v) in
  a * xr + (br * yr - bi * yi) = w * xr /\
  a * xi + (br * yi + bi * yr) = w * xi /\
  (br * xr + bi * xi) + d * yr = w * yr /\
  (br * xi - bi * xr) + d * yi = w * yi /\
  xr * xr + xi * xi + (yr * yr + yi * yi) = 1.
Proof.
  intros [H00 [H11 H01]] [Hv Hn]. cbv zeta.
  destruct H as [[ar ai] [b_r b_i] [cr ci] [dr di]], v as [[xr xi] [yr yi]].
  unfold mat_vec, scale, norm2 in *; cbn [m00 m01 m10 m11 fst snd re im] in *.
  subst ai di. injection H01 as Hbr Hbi. subst b_r b_i.
  injection Hv as E1 E2 E3 E4.
  cbn [Cmult Cplus RtoC re im] in *.
  repeat split; lra.
Qed.

(** Exchanging the diagonal entries keeps both eigenvalues. *)
Lemma eigenvalues_exchange (a d n w0 w1 w0' w1' : R) :
  (w0 - a) * (w0 - d) = n -> (w1 - a) * (w1 - d) = n ->
  (w0' - d) * (w0' - a) = n -> (w1' - d) * (w1' - a) = n ->
  w0 < w1 -> w0' < w1' ->
  w0 + w1 = a + d /\ w0' = w0 /\ w1' = w1.
Proof.
  intros H0 H1 H0' H1' Hg Hg'.
  assert (Hs : w0 + w1 = a + d).
  { assert (Hz : (w0 - w1) * (w0 + w1 - a - d) = 0) by nsatz.
    apply Rmult_integral in Hz. destruct Hz; lra. }
  assert (Hs' : w0' + w1' = a + d).
  { assert (Hz : (w0' - w1') * (w0' + w1' - a - d) = 0) by nsatz.
    apply Rmult_integral in Hz. destruct Hz; lra. }
  assert (Hr0 : (w0' - w0) * (w0' - w1) = 0) by nsatz.
  split; [exact Hs|].
  apply Rmult_integral in Hr0. destruct Hr0 as [Hr0 | Hr0]; lra.
Qed.

Lemma hermitian_exchange_diag (H : Mat2) :
  hermitian H -> hermitian (exchange_diag H).
Proof.
  intros [H00 [H11 H01]].
  unfold hermitian, exchange_diag; cbn [m00 m01 m10 m11]. tauto.
Qed.

(** Where the bands are apart, exchanging the diagonal entries of the matrix
    exchanges the diagonal entries of its band-0 projector. *)
Lemma band0_projector_exchange (eigh : Mat2 -> (R * R) * Mat2) (H : Mat2) :
  hermitian H ->
  solves eigh H -> solves eigh (exchange_diag H) ->
  gap_open eigh H -> gap_open eigh (exchange_diag H) ->
  proj (col0 (snd (eigh (exchange_diag H))))
  = swap_diag (proj (col0 (snd (eigh H)))).
Proof.
  intros Hh [_ [Hp0 Hp1]] [_ [Hq0 Hq1]] Hg Hg'.
  pose proof (hermitian_exchange_diag H Hh) as Hh'.
  unfold gap_open in Hg, Hg'.
  apply (eigenpair_real _ _ _ Hh) in Hp0, Hp1.
  apply (eigenpair_real _ _ _ Hh') in Hq0, Hq1.
  cbv zeta in Hp0, Hp1, Hq0, Hq1.
  destruct (eigh H) as [[w0 w1] V], (eigh (exchange_diag H)) as [[w0' w1'] V'].
  cbn [fst snd] in *.
  destruct H as [[a ai] [br bi] [cr ci] [d di]].
  destruct V as [[xr xi] [ur ui] [yr yi] [vr vi]].
  destruct V' as [[xr' xi'] [ur' ui'] [yr' yi'] [vr' vi']].
  unfold exchange_diag, col0, col1 in *;
    cbn [m00 m01 m10 m11 fst snd re im] in *.
  destruct Hp0 as [A1 [A2 [A3 [A4 A5]]]].
  destruct Hp1 as [B1 [B2 [B3 [B4 B5]]]].
  destruct Hq0 as [A1' [A2' [A3' [A4' A5']]]].
  destruct Hq1 as [B1' [B2' [B3' [B4' B5']]]].
  destruct (projector_identities _ _ _ _ _ _ _ _ _ A1 A2 A3 A4 A5)
    as [P1 [P2 [P3 [P4 P5]]]].
  destruct (projector_identities _ _ _ _ _ _ _ _ _ B1 B2 B3 B4 B5)
    as [_ [_ [_ [_ Q5]]]].
  destruct (projector_identities _ _ _ _ _ _ _ _ _ A1' A2' A3' A4' A5')
    as [P1' [P2' [P3' [P4' P5']]]].
  destruct (projector_identities _ _ _ _ _ _ _ _ _ B1' B2' B3' B4' B5')
    as [_ [_ [_ [_ Q5']]]].
  destruct (eigenvalues_exchange _ _ _ _ _ _ _ P5 Q5 P5' Q5' Hg Hg')
    as [Hsum [Hw0' Hw1']].
  subst w0' w1'.
  set (g := w0 - w1) in *.
  assert (Hgne : g <> 0) by (unfold g; lra).
  replace (2 * w0 - a - d) with g in * by (unfold g; lra).
  replace (2 * w0 - d - a) with g in * by (unfold g; lra).
  assert (N1 : xr' * xr' + xi' * xi' = yr * yr + yi * yi)
    by (apply (Rmult_eq_reg_l g); [lra | exact Hgne]).
  assert (N2 : yr' * yr' + yi' * yi' = xr * xr + xi * xi)
    by (apply (Rmult_eq_reg_l g); [lra | exact Hgne]).
  assert (N3 : xr' * yr' + xi' * yi' = xr * yr + xi * yi)
    by (apply (Rmult_eq_reg_l g); [lra | exact Hgne]).
  assert (N4 : xi' * yr' - xr' * yi' = xi * yr - xr * yi)
    by (apply (Rmult_eq_reg_l g); [lra | exact Hgne]).
  unfold proj, swap_diag; cbn [m00 m01 m10 m11 fst snd].
  f_equal; apply C_eq; cbn [Cmult Cconj re im]; lra.
Qed.

(** ** The link product as a trace of projectors *)

Lemma link4_trace (v0 vx vy vxy : CVec2) :
  link4 v0 vx vy vxy
  = trace (mat_mul (mat_mul (mat_mul (proj v0) (proj vx)) (proj vxy))
                   (proj vy)).
Proof.
  unfold link4, np_vdot, trace, mat_mul, proj; cbn [m00 m01 m10 m11 fst snd].
  ring.
Qed.

Lemma berry_curvature_link (eigh : Mat2 -> (R * R) * Mat2)
    (kx ky D Bz dk : R) :
  berry_curvature eigh kx ky D Bz dk
  = np_imag
      (Clog
         (link_product
            (snd (eigh (haldane_magnon_hamiltonian kx ky D Bz)))
            (snd (eigh (haldane_magnon_hamiltonian (kx + dk) ky D Bz)))
            (snd (eigh (haldane_magnon_hamiltonian kx (ky + dk) D Bz)))
            (snd (eigh (haldane_magnon_hamiltonian (kx + dk) (ky + dk) D Bz)))))
    / dk ^ 2.
Proof. reflexivity. Qed.

Lemma trace_swap_diag_proj (v1 v2 v3 v4 : CVec2) :
  trace (mat_mul (mat_mul (mat_mul (swap_diag (proj v1)) (swap_diag (proj v2)))
                          (swap_diag (proj v3)))
                 (swap_diag (proj v4)))
  = Cconj (trace (mat_mul (mat_mul (mat_mul (proj v1) (proj v2)) (proj v3))
                          (proj v4))).
Proof.
  unfold trace, mat_mul, proj, swap_diag; cbn [m00 m01 m10 m11 fst snd].
  repeat (rewrite ?Cconj_plus, ?Cconj_mult, ?Cconj_involutive).
  ring.
Qed.

(** ** The branch cut *)

Lemma atan2_opp (y x : R) :
  ~ (y = 0 /\ x < 0) -> atan2 (- y) x = - atan2 y x.
Proof.
  intros Hcut. unfold atan2.
  replace (- y / x) with (- (y / x)) by (unfold Rdiv; ring).
  rewrite atan_opp.
  destruct (Rlt_dec 0 x) as [Hx | Hx]; [reflexivity|].
  destruct (Rlt_dec x 0) as [Hx' | Hx'].
  - destruct (Rle_dec 0 y) as [Hy | Hy], (Rle_dec 0 (- y)) as [Hy' | Hy'];
      first [lra | exfalso; apply Hcut; split; lra].
  - destruct (Rlt_dec 0 y), (Rlt_dec 0 (- y)), (Rlt_dec y 0),
      (Rlt_dec (- y) 0); lra.
Qed.

Lemma Clog_conj (z : C) :
  ~ on_branch_cut z -> np_imag (Clog (Cconj z)) = - np_imag (Clog z).
Proof.
  intros Hcut. unfold np_imag, Clog, Cconj; cbn [re im].
  apply atan2_opp. exact Hcut.
Qed.

(** ** Reversing the sign of D *)

Lemma haldane_hermitian (kx ky D Bz : R) :
  hermitian (haldane_magnon_hamiltonian kx ky D Bz).
Proof.
  unfold hermitian, haldane_magnon_hamiltonian; cbn [m00 m01 m10 m11 RtoC im].
  rewrite Cconj_involutive. repeat split; reflexivity.
Qed.

Lemma haldane_reversed (kx ky D Bz : R) :
  haldane_magnon_hamiltonian kx ky (- D) Bz
  = exchange_diag (haldane_magnon_hamiltonian kx ky D Bz).
Proof.
  unfold haldane_magnon_hamiltonian, exchange_diag; cbn [m00 m01 m10 m11].
  f_equal; apply C_eq; cbn [RtoC re im]; ring.
Qed.

Section SignReversal.

Variable eigh : Mat2 -> (R * R) * Mat2.
Hypothesis eigh_contract : band_solver eigh.

Lemma band0_projector_reversed (kx ky D Bz : R) :
  gap_open eigh (haldane_magnon_hamiltonian kx ky D Bz) ->
  gap_open eigh (haldane_magnon_hamiltonian kx ky (- D) Bz) ->
  proj (col0 (snd (eigh (haldane_magnon_hamiltonian kx ky (- D) Bz))))
  = swap_diag
      (proj (col0 (snd (eigh (haldane_magnon_hamiltonian kx ky D Bz))))).
Proof.
  intros Hg Hg'. rewrite haldane_reversed in *.
  apply band0_projector_exchange; try assumption.
  - apply haldane_hermitian.
  - apply eigh_contract, haldane_hermitian.
  - apply eigh_contract, hermitian_exchange_diag, haldane_hermitian.
Qed.

(** On a regular plaquette the curvature at [-D] is minus the curvature at
    [D]. *)
Lemma berry_curvature_reversed (kx ky D Bz dk : R) :
  plaquette_regular eigh D Bz kx ky dk ->
  berry_curvature eigh kx ky (- D) Bz dk
  = - berry_curvature eigh kx ky D Bz dk.
Proof.
  intros [Hgap Hcut].
  assert (G0 := Hgap (kx, ky) ltac:(simpl; auto)).
  assert (Gx := Hgap (kx + dk, ky) ltac:(simpl; auto)).
  assert (Gxy := Hgap (kx + dk, ky + dk) ltac:(simpl; auto)).
  assert (Gy := Hgap (kx, ky + dk) ltac:(simpl; auto)).
  cbn [fst snd] in G0, Gx, Gxy, Gy.
  rewrite !berry_curvature_link. unfold link_product in *.
  rewrite (link4_trace
             (col0 (snd (eigh (haldane_magnon_hamiltonian kx ky (- D) Bz))))).
  rewrite !band0_projector_reversed by tauto.
  rewrite trace_swap_diag_proj, <- link4_trace.
  rewrite Clog_conj by exact Hcut.
  unfold Rdiv; ring.
Qed.

End SignReversal.

Lemma fold_left_negated {A : Type} (f f' : A -> R) (pts : list A) (acc : R) :
  (forall k, In k pts -> f' k = - f k) ->
  fold_left (fun a k => a + f' k) pts (- acc)
  = - fold_left (fun a k => a + f k) pts acc.
Proof.
  revert acc; induction pts as [|k pts IH]; intros acc Hneg; [reflexivity|].
  cbn [fold_left]. rewrite (Hneg k) by (left; reflexivity).
  replace (- acc + - f k) with (- (acc + f k)) by ring.
  apply IH. intros k' Hk'. apply Hneg. right; exact Hk'.
Qed.

Section ChernSign.

Variable eigh : Mat2 -> (R * R) * Mat2.

(** C7: at zero field, for a solver that meets its contract and a grid all
    of whose plaquettes are away from gap closings (distinct bands at every
    corner for [D] and [-D], link product off the branch cut of the
    logarithm), [chern_number] returns at [-D] the negative of what it
    returns at [D]; the two values are negatives of each other within 0.1. *)
Theorem chern_number_sign_antisymmetry (D : R) (nk : Z) :
  (1 <= nk)%Z ->
  band_solver eigh ->
  (forall pts k, chern_samples nk = Ok pts -> In k pts ->
     plaquette_regular eigh D 0 (fst k) (snd k) (2 * PI / IZR nk)) ->
  exists c c',
    chern_number eigh D 0 nk = Ok c /\
    chern_number eigh (- D) 0 nk = Ok c' /\
    c' = - c /\
    Rabs (c + c') <= 0.1.
Proof.
  intros Hnk Hsolver Hreg.
  rewrite !chern_number_over_samples.
  assert (Hpts : exists pts, chern_samples nk = Ok pts).
  { destruct (Z.eq_dec nk 1) as [-> | Hne].
    - eexists; reflexivity.
    - destruct (chern_samples_shape nk ltac:(lia)) as [-> _].
      eexists; reflexivity. }
  destruct Hpts as [pts Hpts]. rewrite Hpts. cbn [bind].
  unfold py_div_int. destruct (Z.eqb_spec nk 0) as [H0 | _]; [lia|].
  cbn [bind].
  set (dk := 2 * PI / IZR nk) in *.
  set (total := fold_left
                  (fun acc k =>
                     acc + berry_curvature eigh (fst k) (snd k) D 0 dk * dk ^ 2)
                  pts 0).
  exists (total / (2 * PI)), (- total / (2 * PI)).
  split; [reflexivity|]. split; [|split].
  - do 2 f_equal. unfold total.
    rewrite <- (fold_left_negated
                  (fun k => berry_curvature eigh (fst k) (snd k) D 0 dk * dk ^ 2)
                  (fun k => berry_curvature eigh (fst k) (snd k) (- D) 0 dk * dk ^ 2)).
    + rewrite Ropp_0. reflexivity.
    + intros k Hk. cbv beta.
      rewrite (berry_curvature_reversed eigh Hsolver)
        by (apply (Hreg pts); assumption).
      ring.
  - unfold Rdiv; ring.
  - replace (total / (2 * PI) + - total / (2 * PI)) with 0
      by (unfold Rdiv; ring).
    rewrite Rabs_R0. lra.
Qed.

End ChernSign.

(** ** Without DM interaction

    At [D = 0] both diagonal entries are [Bz * S]; in exact arithmetic
    every link product is then a real number where the bands are apart, so a
    plaquette contributes 0 or [pi]. *)



Section WithoutDM.

Variable eigh : Mat2 -> (R * R) * Mat2.
Hypothesis eigh_contract : band_solver eigh.

Lemma link_product_real_without_dm (kx ky Bz dk : R) :
  (forall c, In c (plaquette_cycle kx ky dk) ->
     gap_open eigh (haldane_magnon_hamiltonian (fst c) (snd c) 0 Bz)) ->
  im (link_product
        (snd (eigh (haldane_magnon_hamiltonian kx ky 0 Bz)))
        (snd (eigh (haldane_magnon_hamiltonian (kx + dk) ky 0 Bz)))
        (snd (eigh (haldane_magnon_hamiltonian kx (ky + dk) 0 Bz)))
        (snd (eigh (haldane_magnon_hamiltonian (kx + dk) (ky + dk) 0 Bz))))
  = 0.
Proof.
  intros Hgap.
  assert (Hp : forall x y,
            gap_open eigh (haldane_magnon_hamiltonian x y 0 Bz) ->
            swap_diag
              (proj (col0 (snd (eigh (haldane_magnon_hamiltonian x y 0 Bz)))))
            = proj (col0 (snd (eigh (haldane_magnon_hamiltonian x y 0 Bz))))).
  { intros x y Hg.
    pose proof (band0_projector_reversed eigh eigh_contract x y 0 Bz) as Hr.
    rewrite Ropp_0 in Hr. symmetry; apply Hr; exact Hg. }
  assert (G0 := Hgap (kx, ky) ltac:(simpl; auto)).
  assert (Gx := Hgap (kx + dk, ky) ltac:(simpl; auto)).
  assert (Gxy := Hgap (kx + dk, ky + dk) ltac:(simpl; auto)).
  assert (Gy := Hgap (kx, ky + dk) ltac:(simpl; auto)).
  cbn [fst snd] in G0, Gx, Gxy, Gy.
  unfold link_product. rewrite link4_trace.
  match goal with |- im ?t = 0 => set (z := t) end.
  assert (Hz : Cconj z = z).
  { unfold z. rewrite <- trace_swap_diag_proj.
    rewrite (Hp _ _ G0), (Hp _ _ Gx), (Hp _ _ Gxy), (Hp _ _ Gy).
    reflexivity. }
  apply (f_equal im) in Hz. cbn [Cconj im] in Hz. lra.
Qed.


End WithoutDM.

(** ** The closed-form solver meets the contract *)

Lemma normalize_eigenpair (H : Mat2) (w : R) (u : CVec2) :
  0 < norm2 u -> mat_vec H u = scale w u -> eigenpair H w (normalize u).
Proof.
  intros Hn Hu.
  assert (Hs : 0 < sqrt (norm2 u)) by (apply sqrt_lt_R0; exact Hn).
  assert (Hss : sqrt (norm2 u) * sqrt (norm2 u) = norm2 u)
    by (apply sqrt_sqrt; lra).
  unfold mat_vec, scale in Hu.
  assert (E1 := f_equal fst Hu). assert (E2 := f_equal snd Hu).
  cbn [fst snd] in E1, E2.
  split.
  - unfold mat_vec, scale, normalize; cbn [fst snd].
    set (s := RtoC (/ sqrt (norm2 u))).
    f_equal.
    + transitivity (s * (m00 H * fst u + m01 H * snd u))%C; [ring|].
      rewrite E1. ring.
    + transitivity (s * (m10 H * fst u + m11 H * snd u))%C; [ring|].
      rewrite E2. ring.
  - unfold normalize. set (n := norm2 u) in *.
    destruct u as [[xr xi] [yr yi]].
    unfold norm2 in *; cbn [fst snd re im Cmult RtoC] in *.
    set (s := / sqrt n).
    replace ((s * xr - 0 * xi) * (s * xr - 0 * xi)
             + (s * xi + 0 * xr) * (s * xi + 0 * xr)
             + ((s * yr - 0 * yi) * (s * yr - 0 * yi)
                + (s * yi + 0 * yr) * (s * yi + 0 * yr)))
      with (s * s * n) by (unfold n; ring).
    unfold s. rewrite <- Hss at 3. field. lra.
Qed.

Lemma eigh_closed_form_contract : band_solver eigh_closed_form.
Proof.
  intros H [H00 [H11 H01]].
  destruct H as [[a ai] [br bi] [cr ci] [d di]].
  cbn [m00 m01 m10 m11 re im] in *. subst ai di.
  injection H01 as Hbr Hbi. subst br bi.
  unfold solves, eigh_closed_form; cbn [m00 m01 m10 m11 re im].
  set (q := (a - d) / 2 * ((a - d) / 2) + (cr * cr + ci * ci)).
  assert (Hq : 0 <= q).
  { pose proof (Rle_0_sqr ((a - d) / 2)) as Q1.
    pose proof (Rle_0_sqr cr) as Q2. pose proof (Rle_0_sqr ci) as Q3.
    unfold Rsqr in Q1, Q2, Q3. unfold q; lra. }
  set (rho := sqrt q).
  assert (Hrho : 0 <= rho) by apply sqrt_pos.
  assert (Hrr : rho * rho = q) by (apply sqrt_sqrt; exact Hq).
  destruct (Req_dec_T rho 0) as [Hz | Hnz]; cbn [fst snd].
  - (* both bands meet: the matrix is a multiple of the identity *)
    assert (Hq0 : q = 0) by (rewrite <- Hrr, Hz; ring).
    assert (Had : a = d) by (unfold q in Hq0; nra).
    assert (Hcr : cr = 0) by (unfold q in Hq0; nra).
    assert (Hci : ci = 0) by (unfold q in Hq0; nra).
    subst d cr ci. rewrite Hz.
    split; [lra|].
    split; (split;
      [ unfold mat_vec, scale, col0, col1; cbn [m00 m01 m10 m11 fst snd];
        f_equal; apply C_eq; cbn [Cmult Cplus Cconj RtoC re im]; lra
      | unfold norm2, col0, col1; cbn [m00 m01 m10 m11 fst snd RtoC re im];
        lra ]).
  - assert (Hpos : 0 < rho) by lra.
    split; [lra|].
    unfold col0, col1; cbn [m00 m01 m10 m11].
    rewrite <- !surjective_pairing.
    destruct (Rle_dec a d) as [Hle | Hgt].
    + split; apply normalize_eigenpair.
      * unfold norm2; cbn [fst snd RtoC re im]. nra.
      * unfold mat_vec, scale; cbn [m00 m01 m10 m11 fst snd].
        f_equal; apply C_eq; cbn [Cmult Cplus Cconj RtoC re im];
          unfold q in Hrr; nra.
      * unfold norm2; cbn [fst snd RtoC Cconj re im]. nra.
      * unfold mat_vec, scale; cbn [m00 m01 m10 m11 fst snd].
        f_equal; apply C_eq; cbn [Cmult Cplus Cconj RtoC re im];
          unfold q in Hrr; nra.
    + split; apply normalize_eigenpair.
      * unfold norm2; cbn [fst snd RtoC Cconj re im]. nra.
      * unfold mat_vec, scale; cbn [m00 m01 m10 m11 fst snd].
        f_equal; apply C_eq; cbn [Cmult Cplus Cconj RtoC re im];
          unfold q in Hrr; nra.
      * unfold norm2; cbn [fst snd RtoC re im]. nra.
      * unfold mat_vec, scale; cbn [m00 m01 m10 m11 fst snd].
        f_equal; apply C_eq; cbn [Cmult Cplus Cconj RtoC re im];
          unfold q in Hrr; nra.
Qed.


(** ** Band-0 projector from any eigenvector *)

Lemma eigenvector_real (H : Mat2) (w : R) (v : CVec2) :
  hermitian H -> mat_vec H v = scale w v ->
  let a := re (m00 H) in
  let d := re (m11 H) in
  let br := re (m01 H) in
  let bi := im (m01 H) in
  let xr := re (fst v) in
  let xi := im (fst v) in
  let yr := re (snd v) in
  let yi := im (snd v) in
  a * xr + (br * yr - bi * yi) = w * xr /\
  a * xi + (br * yi + bi * yr) = w * xi /\
  (br * xr + bi * xi) + d * yr = w * yr /\
  (br * xi - bi * xr) + d * yi = w * yi.
Proof.
  intros [H00 [H11 H01]] Hv. cbv zeta.
  destruct H as [[ar ai] [b_r b_i] [cr ci] [dr di]], v as [[xr xi] [yr yi]].
  unfold mat_vec, scale in *; cbn [m00 m01 m10 m11 fst snd re im] in *.
  subst ai di. injection H01 as Hbr Hbi. subst b_r b_i.
  injection Hv as E1 E2 E3 E4.
  cbn [Cmult Cplus RtoC re im] in *.
  repeat split; lra.
Qed.

(** [projector_identities] for an eigenvector that is not normalised. *)
Lemma projector_identities_scaled (a d w n xr xi yr yi br bi : R) :
  a * xr + (br * yr - bi * yi) = w * xr ->
  a * xi + (br * yi + bi * yr) = w * xi ->
  (br * xr + bi * xi) + d * yr = w * yr ->
  (br * xi - bi * xr) + d * yi = w * yi ->
  xr * xr + xi * xi + (yr * yr + yi * yi) = n ->
  (2 * w - a - d) * (xr * xr + xi * xi) = (w - d) * n /\
  (2 * w - a - d) * (yr * yr + yi * yi) = (w - a) * n /\
  (2 * w - a - d) * (xr * yr + xi * yi) = br * n /\
  (2 * w - a - d) * (xi * yr - xr * yi) = bi * n.
Proof.
  intros E1 E2 E3 E4 N. repeat split; nsatz.
Qed.

(** Where the bands are apart the band-0 eigenvector is unique up to a
    factor: the projector on any eigenvector [u] for the lower eigenvalue is
    [|u|^2] times the projector on the column the solver returns. *)
Lemma band0_projector_of_eigenvector
    (eigh : Mat2 -> (R * R) * Mat2) (H : Mat2) (u : CVec2) :
  hermitian H -> solves eigh H -> gap_open eigh H ->
  mat_vec H u = scale (fst (fst (eigh H))) u ->
  proj u = mat_scale (norm2 u) (proj (col0 (snd (eigh H)))).
Proof.
  intros Hh [_ [Hp0 Hp1]] Hg Hu.
  unfold gap_open in Hg.
  apply (eigenpair_real _ _ _ Hh) in Hp0, Hp1. cbv zeta in Hp0, Hp1.
  apply (eigenvector_real _ _ _ Hh) in Hu. cbv zeta in Hu.
  destruct (eigh H) as [[w0 w1] V]. cbn [fst snd] in *.
  destruct H as [[a ai] [br bi] [cr ci] [d di]].
  destruct V as [[xr xi] [vr vi] [yr yi] [zr zi]].
  destruct u as [[pr pi] [qr qi]].
  unfold col0, col1 in *; cbn [m00 m01 m10 m11 fst snd re im] in *.
  destruct Hu as [U1' [U2' [U3' U4']]].
  destruct Hp0 as [A1 [A2 [A3 [A4 A5]]]].
  destruct Hp1 as [B1 [B2 [B3 [B4 B5]]]].
  destruct (projector_identities _ _ _ _ _ _ _ _ _ A1 A2 A3 A4 A5)
    as [P1 [P2 [P3 [P4 P5]]]].
  destruct (projector_identities _ _ _ _ _ _ _ _ _ B1 B2 B3 B4 B5)
    as [_ [_ [_ [_ Q5]]]].
  assert (Hs : w0 + w1 = a + d).
  { assert (Hz : (w0 - w1) * (w0 + w1 - a - d) = 0) by nsatz.
    apply Rmult_integral in Hz. destruct Hz; lra. }
  set (n := pr * pr + pi * pi + (qr * qr + qi * qi)).
  destruct (projector_identities_scaled a d w0 n pr pi qr qi br bi
              U1' U2' U3' U4' eq_refl) as [S1 [S2 [S3 S4]]].
  set (g := w0 - w1) in *.
  assert (Hgne : g <> 0) by (unfold g; lra).
  replace (2 * w0 - a - d) with g in * by (unfold g; lra).
  assert (N1 : pr * pr + pi * pi = n * (xr * xr + xi * xi)).
  { apply (Rmult_eq_reg_l g); [|exact Hgne]. rewrite S1.
    transitivity (n * (g * (xr * xr + xi * xi))); [rewrite P1|]; ring. }
  assert (N2 : qr * qr + qi * qi = n * (yr * yr + yi * yi)).
  { apply (Rmult_eq_reg_l g); [|exact Hgne]. rewrite S2.
    transitivity (n * (g * (yr * yr + yi * yi))); [rewrite P2|]; ring. }
  assert (N3 : pr * qr + pi * qi = n * (xr * yr + xi * yi)).
  { apply (Rmult_eq_reg_l g); [|exact Hgne]. rewrite S3.
    transitivity (n * (g * (xr * yr + xi * yi))); [rewrite P3|]; ring. }
  assert (N4 : pi * qr - pr * qi = n * (xi * yr - xr * yi)).
  { apply (Rmult_eq_reg_l g); [|exact Hgne]. rewrite S4.
    transitivity (n * (g * (xi * yr - xr * yi))); [rewrite P4|]; ring. }
  unfold proj, mat_scale, norm2; cbn [m00 m01 m10 m11 fst snd re im].
  fold n.
  f_equal; apply C_eq; cbn [Cmult Cconj RtoC re im]; lra.
Qed.

Lemma trace_mat_scale (r0 rx rxy ry : R) (P0 Px Pxy Py : Mat2) :
  trace (mat_mul (mat_mul (mat_mul (mat_scale r0 P0) (mat_scale rx Px))
                          (mat_scale rxy Pxy))
                 (mat_scale ry Py))
  = (RtoC (r0 * rx * rxy * ry)
     * trace (mat_mul (mat_mul (mat_mul P0 Px) Pxy) Py))%C.
Proof.
  unfold trace, mat_mul, mat_scale; cbn [m00 m01 m10 m11].
  replace (RtoC (r0 * rx * rxy * ry))
    with (RtoC r0 * RtoC rx * RtoC rxy * RtoC ry)%C
    by (apply C_eq; cbn [Cmult RtoC re im]; ring).
  ring.
Qed.

Lemma on_branch_cut_scale (r : R) (z : C) :
  0 < r -> on_branch_cut z -> on_branch_cut (RtoC r * z).
Proof.
  unfold on_branch_cut; cbn [Cmult RtoC re im]. intros Hr [Hi Hre].
  split; nra.
Qed.

(** The link product of the solver's columns is, up to a positive factor,
    the link product of any band-0 eigenvectors of the four matrices. *)
Lemma link_product_of_eigenvectors
    (eigh : Mat2 -> (R * R) * Mat2) (H0 Hx Hy Hxy : Mat2)
    (u0 ux uy uxy : CVec2) :
  band_solver eigh ->
  hermitian H0 -> hermitian Hx -> hermitian Hy -> hermitian Hxy ->
  gap_open eigh H0 -> gap_open eigh Hx ->
  gap_open eigh Hy -> gap_open eigh Hxy ->
  mat_vec H0 u0 = scale (fst (fst (eigh H0))) u0 ->
  mat_vec Hx ux = scale (fst (fst (eigh Hx))) ux ->
  mat_vec Hy uy = scale (fst (fst (eigh Hy))) uy ->
  mat_vec Hxy uxy = scale (fst (fst (eigh Hxy))) uxy ->
  link4 u0 ux uy uxy
  = (RtoC (norm2 u0 * norm2 ux * norm2 uxy * norm2 uy)
     * link_product (snd (eigh H0)) (snd (eigh Hx))
                    (snd (eigh Hy)) (snd (eigh Hxy)))%C.
Proof.
  intros Hs h0 hx hy hxy g0 gx gy gxy e0 ex ey exy.
  unfold link_product. rewrite !link4_trace.
  rewrite (band0_projector_of_eigenvector eigh H0 u0) by auto.
  rewrite (band0_projector_of_eigenvector eigh Hx ux) by auto.
  rewrite (band0_projector_of_eigenvector eigh Hy uy) by auto.
  rewrite (band0_projector_of_eigenvector eigh Hxy uxy) by auto.
  apply trace_mat_scale.
Qed.

(** ** The closed-form solver at zero field *)

Lemma haldane_traceless (kx ky D : R) :
  haldane_magnon_hamiltonian kx ky D 0
  = mkMat2 (RtoC (2 * D * g_k kx ky)) (f_k kx ky) (Cconj (f_k kx ky))
           (RtoC (- (2 * D * g_k kx ky))).
Proof.
  unfold haldane_magnon_hamiltonian, J, S.
  replace (RtoC (1 * 1) * f_k kx ky)%C with (f_k kx ky)
    by (apply C_eq; cbn [Cmult RtoC re im]; ring).
  f_equal; apply C_eq; cbn [RtoC re im]; ring.
Qed.

Lemma traceless_closed_form (alpha : R) (b : C) :
  0 < re b * re b + im b * im b ->
  let H := mkMat2 (RtoC alpha) b (Cconj b) (RtoC (- alpha)) in
  let rho := sqrt (alpha * alpha + (re b * re b + im b * im b)) in
  let u := (b, RtoC (- (rho + alpha))) in
  gap_open eigh_closed_form H /\
  mat_vec H u = scale (fst (fst (eigh_closed_form H))) u /\
  0 < norm2 u.
Proof.
  intros Hb H rho u.
  assert (Hq : 0 < alpha * alpha + (re b * re b + im b * im b)) by nra.
  assert (Hrho : 0 < rho) by (apply sqrt_lt_R0; exact Hq).
  assert (Hrr : rho * rho = alpha * alpha + (re b * re b + im b * im b))
    by (apply sqrt_sqrt; lra).
  assert (Hvals : fst (eigh_closed_form H) = (- rho, rho)).
  { unfold eigh_closed_form, H; cbn [m00 m01 m10 m11 re im Cconj RtoC].
    replace ((alpha - - alpha) / 2 * ((alpha - - alpha) / 2)
             + (re b * re b + - im b * - im b))
      with (alpha * alpha + (re b * re b + im b * im b)) by field.
    fold rho.
    replace ((alpha + - alpha) / 2 - rho) with (- rho) by field.
    replace ((alpha + - alpha) / 2 + rho) with rho by field.
    destruct (Req_dec_T rho 0); reflexivity. }
  split; [|split].
  - unfold gap_open. rewrite Hvals; cbn [fst snd]. lra.
  - rewrite Hvals; cbn [fst snd].
    unfold mat_vec, scale, H, u; cbn [m00 m01 m10 m11 fst snd].
    destruct b as [br bi]; cbn [re im] in *.
    f_equal; apply C_eq; cbn [Cmult Cplus Cconj RtoC re im]; nra.
  - unfold norm2, u; cbn [fst snd RtoC re im]. nra.
Qed.

(** ** The plaquette of the integrator at [nk = 2]

    Its corners are (-pi,-pi), (0,-pi), (-pi,0) and (0,0); the structure
    factors there are written with the cosine and sine of
    [pi * sqrt 3 / 2]. *)

Lemma sqrt3_bounds : 17 / 10 < sqrt 3 < 18 / 10.
Proof.
  assert (H3 : sqrt 3 * sqrt 3 = 3) by (apply sqrt_sqrt; lra).
  assert (Hp : 0 <= sqrt 3) by apply sqrt_pos.
  split; nra.
Qed.

Lemma sqrt5_bounds : 22 / 10 < sqrt 5 < 23 / 10.
Proof.
  assert (H5 : sqrt 5 * sqrt 5 = 5) by (apply sqrt_sqrt; lra).
  assert (Hp : 0 <= sqrt 5) by apply sqrt_pos.
  split; nra.
Qed.

Lemma corner_angle_facts :
  let c := cos (PI * (sqrt 3 / 2)) in
  let s := sin (PI * (sqrt 3 / 2)) in
  -1 <= c /\ c < - (sqrt 3 / 2) /\ 0 < s /\ s * s + c * c = 1.
Proof.
  cbv zeta.
  pose proof PI_RGT_0 as Hpi. pose proof sqrt3_bounds as [Hlo Hhi].
  assert (H0 : 0 < PI * (sqrt 3 / 2)) by nra.
  assert (H1 : PI * (sqrt 3 / 2) < PI) by nra.
  repeat split.
  - apply COS_bound.
  - replace (- (sqrt 3 / 2)) with (cos (PI - PI / 6)).
    + apply cos_decreasing_1; nra.
    + rewrite cos_minus, cos_PI, sin_PI, cos_PI6. ring.
  - apply sin_gt_0; assumption.
  - pose proof (sin2_cos2 (PI * (sqrt 3 / 2))) as H. unfold Rsqr in H. exact H.
Qed.

Lemma f_k_explicit (kx ky : R) :
  f_k kx ky
  = mkC (cos kx + cos (ky * (sqrt 3 / 2) - kx / 2)
         + cos (- (ky * (sqrt 3 / 2)) - kx / 2))
        (sin kx + sin (ky * (sqrt 3 / 2) - kx / 2)
         + sin (- (ky * (sqrt 3 / 2)) - kx / 2)).
Proof.
  unfold f_k, a1, a2, a3, np_dot; cbn [fst snd].
  rewrite !Cexp_imaginary.
  replace (kx * 1 + ky * 0) with kx by ring.
  replace (kx * -0.5 + ky * (sqrt 3 / 2))
    with (ky * (sqrt 3 / 2) - kx / 2) by lra.
  replace (kx * -0.5 + ky * (- sqrt 3 / 2))
    with (- (ky * (sqrt 3 / 2)) - kx / 2) by lra.
  apply C_eq; cbn [Cplus re im]; ring.
Qed.

Lemma g_k_explicit (kx ky : R) :
  g_k kx ky
  = sin (3 * (kx / 2) - ky * (sqrt 3 / 2))
    + sin (2 * (ky * (sqrt 3 / 2)))
    + sin (- (3 * (kx / 2)) - ky * (sqrt 3 / 2)).
Proof.
  unfold g_k, b1, b2, b3, vsub, a1, a2, a3, np_dot; cbn [fst snd].
  replace (kx * (1 - -0.5) + ky * (0 - sqrt 3 / 2))
    with (3 * (kx / 2) - ky * (sqrt 3 / 2)) by lra.
  replace (kx * (-0.5 - -0.5) + ky * (sqrt 3 / 2 - - sqrt 3 / 2))
    with (2 * (ky * (sqrt 3 / 2))) by lra.
  replace (kx * (-0.5 - 1) + ky * (- sqrt 3 / 2 - 0))
    with (- (3 * (kx / 2)) - ky * (sqrt 3 / 2)) by lra.
  reflexivity.
Qed.

Lemma corner_values :
  let c := cos (PI * (sqrt 3 / 2)) in
  let s := sin (PI * (sqrt 3 / 2)) in
  f_k (- PI) (- PI) = mkC (-1) (2 * c) /\
  g_k (- PI) (- PI) = - (2 * s * c) /\
  f_k 0 (- PI) = mkC (1 + 2 * c) 0 /\
  g_k 0 (- PI) = 2 * s - 2 * s * c /\
  f_k (- PI) 0 = mkC (-1) 2 /\
  g_k (- PI) 0 = 0 /\
  f_k 0 0 = mkC 3 0 /\
  g_k 0 0 = 0.
Proof.
  cbv zeta. set (B := PI * (sqrt 3 / 2)).
  assert (Hc3 : cos (3 * (PI / 2)) = 0) by apply cos_3PI2.
  assert (Hs3 : sin (3 * (PI / 2)) = -1) by apply sin_3PI2.
  repeat split.
  - rewrite f_k_explicit.
    replace (- PI * (sqrt 3 / 2) - - PI / 2) with (PI / 2 - B)
      by (unfold B; field).
    replace (- (- PI * (sqrt 3 / 2)) - - PI / 2) with (B + PI / 2)
      by (unfold B; field).
    rewrite cos_neg, sin_neg, cos_PI, sin_PI, cos_shift, sin_shift,
      cos_plus, sin_plus, cos_PI2, sin_PI2.
    apply C_eq; cbn [re im]; ring.
  - rewrite g_k_explicit.
    replace (3 * (- PI / 2) - - PI * (sqrt 3 / 2)) with (B - 3 * (PI / 2))
      by (unfold B; field).
    replace (2 * (- PI * (sqrt 3 / 2))) with (- (2 * B)) by (unfold B; field).
    replace (- (3 * (- PI / 2)) - - PI * (sqrt 3 / 2)) with (3 * (PI / 2) + B)
      by (unfold B; field).
    rewrite sin_minus, sin_plus, sin_neg, sin_2a, Hc3, Hs3. ring.
  - rewrite f_k_explicit.
    replace (- PI * (sqrt 3 / 2) - 0 / 2) with (- B) by (unfold B; field).
    replace (- (- PI * (sqrt 3 / 2)) - 0 / 2) with B by (unfold B; field).
    rewrite cos_neg, sin_neg, cos_0, sin_0.
    apply C_eq; cbn [re im]; ring.
  - rewrite g_k_explicit.
    replace (3 * (0 / 2) - - PI * (sqrt 3 / 2)) with B by (unfold B; field).
    replace (2 * (- PI * (sqrt 3 / 2))) with (- (2 * B)) by (unfold B; field).
    replace (- (3 * (0 / 2)) - - PI * (sqrt 3 / 2)) with B
      by (unfold B; field).
    rewrite sin_neg, sin_2a. ring.
  - rewrite f_k_explicit.
    replace (0 * (sqrt 3 / 2) - - PI / 2) with (PI / 2) by field.
    replace (- (0 * (sqrt 3 / 2)) - - PI / 2) with (PI / 2) by field.
    rewrite cos_neg, sin_neg, cos_PI, sin_PI, cos_PI2, sin_PI2.
    apply C_eq; cbn [re im]; ring.
  - rewrite g_k_explicit.
    replace (3 * (- PI / 2) - 0 * (sqrt 3 / 2)) with (- (3 * (PI / 2)))
      by field.
    replace (2 * (0 * (sqrt 3 / 2))) with 0 by field.
    replace (- (3 * (- PI / 2)) - 0 * (sqrt 3 / 2)) with (3 * (PI / 2))
      by field.
    rewrite sin_neg, sin_0, Hs3. ring.
  - rewrite f_k_explicit.
    replace (0 * (sqrt 3 / 2) - 0 / 2) with 0 by field.
    replace (- (0 * (sqrt 3 / 2)) - 0 / 2) with 0 by field.
    rewrite cos_0, sin_0. apply C_eq; cbn [re im]; ring.
  - rewrite g_k_explicit.
    replace (3 * (0 / 2) - 0 * (sqrt 3 / 2)) with 0 by field.
    replace (2 * (0 * (sqrt 3 / 2))) with 0 by field.
    replace (- (3 * (0 / 2)) - 0 * (sqrt 3 / 2)) with 0 by field.
    rewrite sin_0. ring.
Qed.

Lemma gap_open_closed_form (kx ky D : R) :
  0 < re (f_k kx ky) * re (f_k kx ky) + im (f_k kx ky) * im (f_k kx ky) ->
  gap_open eigh_closed_form (haldane_magnon_hamiltonian kx ky D 0).
Proof.
  intros Hf. rewrite haldane_traceless.
  apply (traceless_closed_form (2 * D * g_k kx ky) (f_k kx ky) Hf).
Qed.

(** The imaginary part of the link product of the four eigenvectors
    [(f, -R)] at the corners of that plaquette is positive. *)
Lemma corner_link_imag (c R0 Rx Ry : R) :
  -1 <= c -> c < - (17 / 20) ->
  19 / 10 < R0 -> - (1 + 2 * c) < Rx -> 22 / 10 < Ry < 23 / 10 ->
  0 < im (link4 (mkC (-1) (2 * c), RtoC (- R0))
                (mkC (1 + 2 * c) 0, RtoC (- Rx))
                (mkC (-1) 2, RtoC (- Ry))
                (mkC 3 0, RtoC (- (3)))).
Proof.
  intros Hc1 Hc2 HR0 HRx [HRy1 HRy2].
  set (A1 := R0 * Rx - (1 + 2 * c)).
  set (B1 := - (2 * c * (1 + 2 * c))).
  set (A2 := 3 * (1 + 2 * c) + 3 * Rx).
  set (A3 := 3 * Ry - 3).
  set (T := 1 + 4 * c + Ry * R0).
  set (E := 2 - 2 * c).
  assert (L1 : np_vdot (mkC (-1) (2 * c), RtoC (- R0))
                       (mkC (1 + 2 * c) 0, RtoC (- Rx)) = mkC A1 B1)
    by (apply C_eq; unfold np_vdot, A1, B1;
        cbn [Cmult Cplus Cconj RtoC re im fst snd]; ring).
  assert (L2 : np_vdot (mkC (1 + 2 * c) 0, RtoC (- Rx))
                       (mkC 3 0, RtoC (- (3))) = mkC A2 0)
    by (apply C_eq; unfold np_vdot, A2;
        cbn [Cmult Cplus Cconj RtoC re im fst snd]; ring).
  assert (L3 : np_vdot (mkC 3 0, RtoC (- (3)))
                       (mkC (-1) 2, RtoC (- Ry)) = mkC A3 6)
    by (apply C_eq; unfold np_vdot, A3;
        cbn [Cmult Cplus Cconj RtoC re im fst snd]; ring).
  assert (L4 : np_vdot (mkC (-1) 2, RtoC (- Ry))
                       (mkC (-1) (2 * c), RtoC (- R0)) = mkC T E)
    by (apply C_eq; unfold np_vdot, T, E;
        cbn [Cmult Cplus Cconj RtoC re im fst snd]; ring).
  unfold link4. rewrite L1, L2, L3, L4. cbn [Cmult re im].
  assert (HRx' : 7 / 10 < Rx) by lra.
  assert (HA1 : 2 < A1) by (unfold A1; nra).
  assert (HB1a : B1 < 0) by (unfold B1; nra).
  assert (HB1b : -2 <= B1) by (unfold B1; nra).
  assert (HA2 : 0 < A2) by (unfold A2; lra).
  assert (HA3a : 0 < A3) by (unfold A3; lra).
  assert (HA3b : A3 < 39 / 10) by (unfold A3; lra).
  assert (HT : 0 < T) by (unfold T; nra).
  assert (HE : 0 < E) by (unfold E; lra).
  replace ((A1 * A2 - B1 * 0) * A3 - (A1 * 0 + B1 * A2) * 6) 
    with (A2 * (A1 * A3 - 6 * B1)) by ring.
  replace ((A1 * A2 - B1 * 0) * 6 + (A1 * 0 + B1 * A2) * A3)
    with (A2 * (6 * A1 + B1 * A3)) by ring.
  assert (P1 : 0 < A1 * A3 - 6 * B1) by nra.
  assert (P2 : 0 < 6 * A1 + B1 * A3) by nra.
  assert (Q1 : 0 < A2 * (A1 * A3 - 6 * B1)) by (apply Rmult_lt_0_compat; lra).
  assert (Q2 : 0 < A2 * (6 * A1 + B1 * A3)) by (apply Rmult_lt_0_compat; lra).
  assert (Q3 : 0 < A2 * (A1 * A3 - 6 * B1) * E) by (apply Rmult_lt_0_compat; lra).
  assert (Q4 : 0 < A2 * (6 * A1 + B1 * A3) * T) by (apply Rmult_lt_0_compat; lra).
  lra.
Qed.

Lemma closed_form_corner (kx ky D fr fi g : R) :
  f_k kx ky = mkC fr fi -> g_k kx ky = g -> 0 < fr * fr + fi * fi ->
  let H := haldane_magnon_hamiltonian kx ky D 0 in
  let rho := sqrt (2 * D * g * (2 * D * g) + (fr * fr + fi * fi)) in
  let u := (mkC fr fi, RtoC (- (rho + 2 * D * g))) in
  gap_open eigh_closed_form H /\
  mat_vec H u = scale (fst (fst (eigh_closed_form H))) u /\
  0 < norm2 u.
Proof.
  intros Hf Hg Hpos. cbv zeta.
  rewrite haldane_traceless, Hf, Hg.
  apply (traceless_closed_form (2 * D * g) (mkC fr fi) Hpos).
Qed.

(** The single plaquette of the integrator at [nk = 2] is away from gap
    closings for [D = 1], with the closed-form solver. *)
Lemma plaquette_regular_at_two :
  plaquette_regular eigh_closed_form 1 0 (- PI) (- PI) (2 * PI / IZR 2).
Proof.
  replace (2 * PI / IZR 2) with PI by field.
  destruct corner_values as [F0 [G0 [Fx [Gx [Fy [Gy [Fxy Gxy]]]]]]].
  destruct corner_angle_facts as [Hc1 [Hc2 [Hs Hsc]]].
  cbv zeta in *.
  pose proof sqrt3_bounds as [Hq3 _].
  set (c := cos (PI * (sqrt 3 / 2))) in *.
  set (s := sin (PI * (sqrt 3 / 2))) in *.
  assert (Hc3 : c < - (17 / 20)) by lra.
  assert (P0 : 0 < -1 * -1 + 2 * c * (2 * c)) by nra.
  assert (Px : 0 < (1 + 2 * c) * (1 + 2 * c) + 0 * 0) by nra.
  assert (Py : 0 < -1 * -1 + 2 * 2) by lra.
  assert (Pxy : 0 < 3 * 3 + 0 * 0) by lra.
  assert (gaps : forall D,
            gap_open eigh_closed_form (haldane_magnon_hamiltonian (- PI) (- PI) D 0) /\
            gap_open eigh_closed_form (haldane_magnon_hamiltonian 0 (- PI) D 0) /\
            gap_open eigh_closed_form (haldane_magnon_hamiltonian (- PI) 0 D 0) /\
            gap_open eigh_closed_form (haldane_magnon_hamiltonian 0 0 D 0)).
  { intros D. repeat split; apply gap_open_closed_form.
    - rewrite F0; exact P0.
    - rewrite Fx; exact Px.
    - rewrite Fy; exact Py.
    - rewrite Fxy; exact Pxy. }
  unfold plaquette_regular, plaquette_cycle.
  replace (- PI + PI) with 0 by ring.
  split.
  - destruct (gaps 1) as [g0 [gx [gy gxy]]].
    destruct (gaps (- (1))) as [g0' [gx' [gy' gxy']]].
    intros k [<- | [<- | [<- | [<- | []]]]]; cbn [fst snd]; split; assumption.
  - intros Hcut.
    destruct (closed_form_corner _ _ 1 _ _ _ F0 G0 P0) as [g0 [e0 n0]].
    destruct (closed_form_corner _ _ 1 _ _ _ Fx Gx Px) as [gx [ex nx]].
    destruct (closed_form_corner _ _ 1 _ _ _ Fy Gy Py) as [gy [ey ny]].
    destruct (closed_form_corner _ _ 1 _ _ _ Fxy Gxy Pxy) as [gxy [exy nxy]].
    pose proof (link_product_of_eigenvectors eigh_closed_form _ _ _ _ _ _ _ _
                  eigh_closed_form_contract
                  (haldane_hermitian _ _ _ _) (haldane_hermitian _ _ _ _)
                  (haldane_hermitian _ _ _ _) (haldane_hermitian _ _ _ _)
                  g0 gx gy gxy e0 ex ey exy) as Hlink.
    match type of Hlink with _ = (RtoC ?n * _)%C =>
      assert (Hn : 0 < n) by (repeat apply Rmult_lt_0_compat; assumption);
      apply (on_branch_cut_scale n) in Hcut; [|exact Hn]
    end.
    rewrite <- Hlink in Hcut. destruct Hcut as [Him _].
    clear Hlink e0 ex ey exy n0 nx ny nxy.
    (* the second components of the four eigenvectors *)
    set (R0 := sqrt (2 * 1 * - (2 * s * c) * (2 * 1 * - (2 * s * c))
                     + (-1 * -1 + 2 * c * (2 * c)))
               + 2 * 1 * - (2 * s * c)) in Him.
    set (Rx := sqrt (2 * 1 * (2 * s - 2 * s * c) * (2 * 1 * (2 * s - 2 * s * c))
                     + ((1 + 2 * c) * (1 + 2 * c) + 0 * 0))
               + 2 * 1 * (2 * s - 2 * s * c)) in Him.
    set (Ry := sqrt (2 * 1 * 0 * (2 * 1 * 0) + (-1 * -1 + 2 * 2)) + 2 * 1 * 0)
      in Him.
    replace (sqrt (2 * 1 * 0 * (2 * 1 * 0) + (3 * 3 + 0 * 0)) + 2 * 1 * 0)
      with 3 in Him.
    2:{ replace (2 * 1 * 0 * (2 * 1 * 0) + (3 * 3 + 0 * 0)) with (3 * 3) by ring.
        rewrite sqrt_square by lra. ring. }
    assert (HR0 : 19 / 10 < R0).
    { unfold R0.
      set (q := 2 * 1 * - (2 * s * c) * (2 * 1 * - (2 * s * c))
                + (-1 * -1 + 2 * c * (2 * c))).
      assert (Hq : 0 <= q) by (unfold q; nra).
      pose proof (sqrt_pos q) as Hsq. pose proof (sqrt_sqrt q Hq) as Hss.
      assert (361 / 100 < q) by (unfold q; nra).
      assert (0 < 2 * 1 * - (2 * s * c)) by nra.
      nra. }
    assert (HRx : - (1 + 2 * c) < Rx).
    { unfold Rx.
      set (q := 2 * 1 * (2 * s - 2 * s * c) * (2 * 1 * (2 * s - 2 * s * c))
                + ((1 + 2 * c) * (1 + 2 * c) + 0 * 0)).
      assert (Hq : 0 <= q) by (unfold q; nra).
      pose proof (sqrt_pos q) as Hsq. pose proof (sqrt_sqrt q Hq) as Hss.
      assert ((1 + 2 * c) * (1 + 2 * c) <= q) by (unfold q; nra).
      assert (0 < 2 * 1 * (2 * s - 2 * s * c)) by nra.
      nra. }
    assert (HRy : 22 / 10 < Ry < 23 / 10).
    { unfold Ry.
      replace (2 * 1 * 0 * (2 * 1 * 0) + (-1 * -1 + 2 * 2)) with 5 by ring.
      pose proof sqrt5_bounds. lra. }
    pose proof (corner_link_imag c R0 Rx Ry Hc1 Hc3 HR0 HRx HRy) as Hpos.
    rewrite Him in Hpos. lra.
Qed.

(** ** Instances on the closed-form solver *)





Lemma berry_curvature_plaquette_witness :
  0 < 1 /\
  berry_curvature eigh_closed_form 0 0 1 0 1
  = plaquette_value (fun k => band0 eigh_closed_form (fst k) (snd k) 1 0) 0 0 1.
Proof.
  split.
  - exact Rlt_0_1.
  - exact (proj1 (berry_curvature_plaquette eigh_closed_form 0 0 1 0 1 Rlt_0_1)).
Defined.


Lemma berry_curvature_bounded_witness :
  0 < 1 /\
  Rabs (berry_curvature eigh_closed_form 0 0 1 0 1) <= PI / 1 ^ 2 /\
  Rabs (berry_curvature eigh_closed_form 0 0 1 0 1 * 2 ^ 2) <= PI * 2 ^ 2 / 1 ^ 2.
Proof.
  split.
  - exact Rlt_0_1.
  - exact (berry_curvature_bounded eigh_closed_form 0 0 1 0 1 2 Rlt_0_1).
Defined.

Lemma chern_number_below_two_witness :
  (1 < 2)%Z /\ chern_number eigh_closed_form 0 0 1 = Ok 0.
Proof.
  split.
  - reflexivity.
  - exact (chern_number_below_two eigh_closed_form 0 0 1 eq_refl).
Defined.

(** With [nk = 1] the integrator returns 0 and raises nothing. *)
Lemma chern_number_one_not_rejected :
  chern_number eigh_closed_form 0 0 1 = Ok 0 /\
  ~ (exists e, chern_number eigh_closed_form 0 0 1 = Raise e).
Proof.
  pose proof (chern_number_one eigh_closed_form 0 0) as H.
  split; [exact H|].
  intros [e He]. rewrite H in He. discriminate He.
Qed.

(** With an empty D-range or an empty Bz-range the sweep returns a grid and
    raises nothing. *)
Lemma sweep_empty_not_rejected :
  sweep eigh_closed_form [] [0] 30 = Ok [] /\
  sweep eigh_closed_form [0] [] 30 = Ok [[]] /\
  ~ (exists e, sweep eigh_closed_form [] [0] 30 = Raise e) /\
  ~ (exists e, sweep eigh_closed_form [0] [] 30 = Raise e).
Proof.
  repeat split; try reflexivity; intros [e He]; discriminate He.
Qed.

Lemma chern_number_sign_antisymmetry_witness :
  (1 <= 2)%Z /\
  band_solver eigh_closed_form /\
  (forall pts k, chern_samples 2 = Ok pts -> In k pts ->
     plaquette_regular eigh_closed_form 1 0 (fst k) (snd k) (2 * PI / IZR 2)) /\
  exists c c',
    chern_number eigh_closed_form 1 0 2 = Ok c /\
    chern_number eigh_closed_form (- (1)) 0 2 = Ok c' /\
    c' = - c /\
    Rabs (c + c') <= 0.1.
Proof.
  assert (Hnk : (1 <= 2)%Z) by (intros Hgt; discriminate Hgt).
  assert (Hreg : forall pts k, chern_samples 2 = Ok pts -> In k pts ->
            plaquette_regular eigh_closed_form 1 0 (fst k) (snd k)
              (2 * PI / IZR 2)).
  { intros pts k Hpts Hk. rewrite chern_samples_two in Hpts.
    injection Hpts as <-. destruct Hk as [<- | []].
    exact plaquette_regular_at_two. }
  split; [exact Hnk|]. split; [exact eigh_closed_form_contract|].
  split; [exact Hreg|].
  exact (chern_number_sign_antisymmetry eigh_closed_form 1 2 Hnk
           eigh_closed_form_contract Hreg).
Defined.

(** * Further properties of the sweep script *)

(** ** When the integrator returns *)

Lemma chern_samples_defined (nk : Z) :
  (1 <= nk)%Z -> exists pts, chern_samples nk = Ok pts.
Proof.
  intros Hnk. destruct (Z.eq_dec nk 1) as [-> | Hne].
  - eexists; reflexivity.
  - destruct (chern_samples_shape nk ltac:(lia)) as [-> _].
    eexists; reflexivity.
Qed.

Lemma py_div_int_defined (x : R) (nk : Z) :
  (1 <= nk)%Z -> py_div_int x nk = Ok (x / IZR nk).
Proof.
  intros Hnk. unfold py_div_int.
  destruct (Z.eqb_spec nk 0); [lia | reflexivity].
Qed.

Lemma chern_number_raises (eigh : Mat2 -> (R * R) * Mat2) (D Bz : R) (nk : Z) :
  (nk <= 0)%Z -> exists e, chern_number eigh D Bz nk = Raise e.
Proof.
  intros Hnk. unfold chern_number, np_linspace.
  destruct (Z.ltb_spec nk 0) as [Hneg | Hge].
  - eexists; reflexivity.
  - assert (nk = 0%Z) by lia. subst nk. eexists; reflexivity.
Qed.

(** X1: [chern_number] returns a value exactly when [nk >= 1]; for every
    other [nk] it raises, and for [nk >= 1] it never does. *)
Theorem chern_number_returns_iff
    (eigh : Mat2 -> (R * R) * Mat2) (D Bz : R) (nk : Z) :
  (exists c, chern_number eigh D Bz nk = Ok c) <-> (1 <= nk)%Z.
Proof.
  split.
  - intros [c Hc]. destruct (Z_le_gt_dec 1 nk) as [H1 | H1]; [exact H1|].
    destruct (chern_number_raises eigh D Bz nk ltac:(lia)) as [e He].
    rewrite He in Hc. discriminate Hc.
  - intros Hnk. rewrite chern_number_over_samples.
    destruct (chern_samples_defined nk Hnk) as [pts ->].
    rewrite (py_div_int_defined _ nk Hnk). cbn [bind].
    eexists; reflexivity.
Qed.

(** ** Where the integrator samples *)

Lemma chern_samples_raises (nk : Z) :
  (nk <= 0)%Z -> exists e, chern_samples nk = Raise e.
Proof.
  intros Hnk. unfold chern_samples, np_linspace.
  destruct (Z.ltb_spec nk 0) as [Hneg | Hge].
  - eexists; reflexivity.
  - assert (nk = 0%Z) by lia. subst nk. eexists; reflexivity.
Qed.

Lemma axis_point_in_zone (nk : Z) (x : R) :
  (2 <= nk)%Z ->
  In x (map (fun i => INR i * ((PI - - PI) / IZR (nk - 1)) + - PI)
          (seq 0 (Z.to_nat (nk - 1)))) ->
  - PI <= x < PI.
Proof.
  intros Hnk Hin. apply in_map_iff in Hin. destruct Hin as [i [<- Hi]].
  apply in_seq in Hi.
  pose proof PI_RGT_0 as Hpi.
  assert (HN : 0 < IZR (nk - 1)) by (apply IZR_lt; lia).
  assert (Hi0 : 0 <= INR i) by apply pos_INR.
  assert (HiN : INR i < IZR (nk - 1)).
  { rewrite INR_IZR_INZ. apply IZR_lt. lia. }
  set (N := IZR (nk - 1)) in *. set (r := INR i) in *.
  assert (Hq : 0 <= r / N < 1).
  { split.
    - apply Rmult_le_pos; [exact Hi0 | left; apply Rinv_0_lt_compat; exact HN].
    - apply (Rmult_lt_reg_r N); [exact HN|]. unfold Rdiv.
      rewrite Rmult_assoc, Rinv_l by lra. lra. }
  replace (r * ((PI - - PI) / N) + - PI) with (r / N * (2 * PI) - PI)
    by (field; lra).
  split; nra.
Qed.

(** X2: whenever the grid is built, the loops of [chern_number] visit
    [(nk - 1)^2] wavevectors, and each of them lies in the half-open square
    [-pi, pi) x [-pi, pi): the value [pi] is never sampled. *)
Theorem chern_samples_in_zone (nk : Z) (pts : list (R * R)) :
  chern_samples nk = Ok pts ->
  length pts = (Z.to_nat (nk - 1) * Z.to_nat (nk - 1))%nat /\
  forall k, In k pts -> (- PI <= fst k < PI) /\ (- PI <= snd k < PI).
Proof.
  intros Hpts.
  destruct (Z_le_gt_dec nk 0) as [H0 | H0].
  { destruct (chern_samples_raises nk H0) as [e He].
    rewrite He in Hpts. discriminate Hpts. }
  destruct (Z.eq_dec nk 1) as [-> | H1].
  { injection Hpts as <-. split; [reflexivity | intros k []]. }
  destruct (chern_samples_shape nk ltac:(lia)) as [Hs Hlen].
  cbv zeta in Hs, Hlen. rewrite Hs in Hpts. injection Hpts as <-.
  split; [exact Hlen|].
  intros [kx ky] Hk. apply in_prod_iff in Hk. destruct Hk as [Hx Hy].
  cbn [fst snd].
  split; apply (axis_point_in_zone nk); try assumption; lia.
Qed.

Lemma chern_samples_in_zone_witness :
  chern_samples 2 = Ok [(- PI, - PI)] /\
  length [(- PI, - PI)] = (Z.to_nat (2 - 1) * Z.to_nat (2 - 1))%nat /\
  forall k, In k [(- PI, - PI)] ->
    (- PI <= fst k < PI) /\ (- PI <= snd k < PI).
Proof.
  split.
  - exact chern_samples_two.
  - exact (chern_samples_in_zone 2 [(- PI, - PI)] chern_samples_two).
Defined.

(** ** How large the result can be *)

Lemma chern_samples_count (nk : Z) (pts : list (R * R)) :
  (1 <= nk)%Z -> chern_samples nk = Ok pts ->
  INR (length pts) = IZR ((nk - 1) * (nk - 1)).
Proof.
  intros Hnk Hpts.
  assert (Hlen : length pts = (Z.to_nat (nk - 1) * Z.to_nat (nk - 1))%nat).
  { destruct (Z.eq_dec nk 1) as [-> | H1].
    - injection Hpts as <-. reflexivity.
    - destruct (chern_samples_shape nk ltac:(lia)) as [Hs Hlen].
      cbv zeta in Hs, Hlen. rewrite Hs in Hpts. injection Hpts as <-.
      exact Hlen. }
  rewrite Hlen, mult_INR, INR_IZR_INZ, Z2Nat.id, <- mult_IZR by lia.
  reflexivity.
Qed.

Lemma contribution_bound (eigh : Mat2 -> (R * R) * Mat2)
    (kx ky D Bz dk : R) :
  0 < dk -> Rabs (berry_curvature eigh kx ky D Bz dk * dk ^ 2) <= PI.
Proof.
  intros Hdk. rewrite berry_curvature_link.
  match goal with |- Rabs (np_imag (Clog ?z) / _ * _) <= _ =>
    pose proof (Clog_branch z) as Hr; set (th := np_imag (Clog z)) in * end.
  assert (Hd2 : 0 < dk ^ 2) by (apply pow_lt; exact Hdk).
  replace (th / dk ^ 2 * dk ^ 2) with th by (field; lra).
  apply Rabs_le; lra.
Qed.

Lemma fold_left_abs_bound {A : Type} (f : A -> R) (M : R) (pts : list A)
    (acc : R) :
  (forall k, In k pts -> Rabs (f k) <= M) ->
  Rabs (fold_left (fun a k => a + f k) pts acc)
  <= Rabs acc + INR (length pts) * M.
Proof.
  revert acc; induction pts as [|k pts IH]; intros acc Hb.
  - cbn [fold_left length INR]. lra.
  - cbn [fold_left]. 
    assert (Hk : Rabs (f k) <= M) by (apply Hb; left; reflexivity).
    assert (IH' := IH (acc + f k) (fun k' Hk' => Hb k' (or_intror Hk'))).
    pose proof (Rabs_triang acc (f k)) as Ht.
    change (length (k :: pts)) with (Datatypes.S (length pts)).
    rewrite S_INR. lra.
Qed.

(** X3: for [nk >= 1] the value returned by [chern_number] is at most
    [(nk - 1)^2 / 2] in absolute value, whatever the solver returns: each of
    the [(nk - 1)^2] plaquettes adds a phase in (-pi, pi] and the sum is
    divided by [2*pi]. *)
Theorem chern_number_bounded
    (eigh : Mat2 -> (R * R) * Mat2) (D Bz : R) (nk : Z) :
  (1 <= nk)%Z ->
  exists c,
    chern_number eigh D Bz nk = Ok c /\
    Rabs c <= IZR ((nk - 1) * (nk - 1)) / 2.
Proof.
  intros Hnk. rewrite chern_number_over_samples.
  destruct (chern_samples_defined nk Hnk) as [pts Hpts]. rewrite Hpts.
  rewrite (py_div_int_defined _ nk Hnk). cbn [bind].
  eexists; split; [reflexivity|].
  pose proof PI_RGT_0 as Hpi.
  assert (Hdk : 0 < 2 * PI / IZR nk).
  { apply Rdiv_lt_0_compat; [lra | apply IZR_lt; lia]. }
  set (dk := 2 * PI / IZR nk) in *.
  pose proof (fold_left_abs_bound
                (fun k => berry_curvature eigh (fst k) (snd k) D Bz dk * dk ^ 2)
                PI pts 0
                (fun k _ => contribution_bound eigh (fst k) (snd k) D Bz dk Hdk))
    as Hsum.
  rewrite Rabs_R0, (chern_samples_count nk pts Hnk Hpts) in Hsum.
  cbv beta in Hsum.
  set (total := fold_left _ pts 0) in *.
  unfold Rdiv at 1. rewrite Rabs_mult, (Rabs_right (/ (2 * PI))).
  2:{ left. apply Rinv_0_lt_compat. lra. }
  apply (Rmult_le_reg_r (2 * PI)); [lra|].
  rewrite Rmult_assoc, Rinv_l by lra.
  set (n := IZR ((nk - 1) * (nk - 1))) in *. lra.
Qed.

Lemma chern_number_bounded_witness :
  (1 <= 2)%Z /\
  exists c,
    chern_number eigh_closed_form 1 0 2 = Ok c /\
    Rabs c <= IZR ((2 - 1) * (2 - 1)) / 2.
Proof.
  assert (Hnk : (1 <= 2)%Z) by (intros Hgt; discriminate Hgt).
  split; [exact Hnk|].
  exact (chern_number_bounded eigh_closed_form 1 0 2 Hnk).
Defined.

(** ** The gauge of the solver *)





(** ** The Zeeman field *)

Lemma eigenvalues_shift (a d B n w0 w1 w0' w1' : R) :
  (w0 - a) * (w0 - d) = n -> (w1 - a) * (w1 - d) = n ->
  (w0' - (a + B)) * (w0' - (d + B)) = n ->
  (w1' - (a + B)) * (w1' - (d + B)) = n ->
  w0 < w1 -> w0' < w1' ->
  w0 + w1 = a + d /\ w0' = w0 + B /\ w1' = w1 + B.
Proof.
  intros H0 H1 H0' H1' Hg Hg'.
  assert (Hs : w0 + w1 = a + d).
  { assert (Hz : (w0 - w1) * (w0 + w1 - a - d) = 0) by nsatz.
    apply Rmult_integral in Hz. destruct Hz; lra. }
  assert (Hs' : w0' + w1' = a + d + 2 * B).
  { assert (Hz : (w0' - w1') * (w0' + w1' - a - d - 2 * B) = 0) by nsatz.
    apply Rmult_integral in Hz. destruct Hz; lra. }
  assert (Hr0 : (w0' - B - w0) * (w0' - B - w1) = 0) by nsatz.
  split; [exact Hs|].
  apply Rmult_integral in Hr0. destruct Hr0 as [Hr0 | Hr0]; lra.
Qed.

Lemma hermitian_shift_diag (B : R) (H : Mat2) :
  hermitian H -> hermitian (shift_diag B H).
Proof.
  intros [H00 [H11 H01]].
  unfold hermitian, shift_diag; cbn [m00 m01 m10 m11 Cplus RtoC im].
  repeat split; try lra. exact H01.
Qed.

(** Where the bands are apart, adding a multiple of the identity leaves the
    band-0 projector as it is. *)
Lemma band0_projector_shift (eigh : Mat2 -> (R * R) * Mat2) (B : R)
    (H : Mat2) :
  hermitian H ->
  solves eigh H -> solves eigh (shift_diag B H) ->
  gap_open eigh H -> gap_open eigh (shift_diag B H) ->
  proj (col0 (snd (eigh (shift_diag B H)))) = proj (col0 (snd (eigh H))).
Proof.
  intros Hh [_ [Hp0 Hp1]] [_ [Hq0 Hq1]] Hg Hg'.
  pose proof (hermitian_shift_diag B H Hh) as Hh'.
  unfold gap_open in Hg, Hg'.
  apply (eigenpair_real _ _ _ Hh) in Hp0, Hp1.
  apply (eigenpair_real _ _ _ Hh') in Hq0, Hq1.
  cbv zeta in Hp0, Hp1, Hq0, Hq1.
  destruct (eigh H) as [[w0 w1] V], (eigh (shift_diag B H)) as [[w0' w1'] V'].
  cbn [fst snd] in *.
  destruct H as [[a ai] [br bi] [cr ci] [d di]].
  destruct V as [[xr xi] [ur ui] [yr yi] [vr vi]].
  destruct V' as [[xr' xi'] [ur' ui'] [yr' yi'] [vr' vi']].
  unfold shift_diag, col0, col1 in *;
    cbn [m00 m01 m10 m11 fst snd re im Cplus RtoC] in *.
  destruct Hp0 as [A1 [A2 [A3 [A4 A5]]]].
  destruct Hp1 as [B1 [B2 [B3 [B4 B5]]]].
  destruct Hq0 as [A1' [A2' [A3' [A4' A5']]]].
  destruct Hq1 as [B1' [B2' [B3' [B4' B5']]]].
  destruct (projector_identities _ _ _ _ _ _ _ _ _ A1 A2 A3 A4 A5)
    as [P1 [P2 [P3 [P4 P5]]]].
  destruct (projector_identities _ _ _ _ _ _ _ _ _ B1 B2 B3 B4 B5)
    as [_ [_ [_ [_ Q5]]]].
  destruct (projector_identities _ _ _ _ _ _ _ _ _ A1' A2' A3' A4' A5')
    as [P1' [P2' [P3' [P4' P5']]]].
  destruct (projector_identities _ _ _ _ _ _ _ _ _ B1' B2' B3' B4' B5')
    as [_ [_ [_ [_ Q5']]]].
  destruct (eigenvalues_shift _ _ _ _ _ _ _ _ P5 Q5 P5' Q5' Hg Hg')
    as [Hsum [Hw0' Hw1']].
  subst w0' w1'.
  set (g := w0 - w1) in *.
  assert (Hgne : g <> 0) by (unfold g; lra).
  replace (2 * w0 - a - d) with g in * by (unfold g; lra).
  replace (2 * (w0 + B) - (a + B) - (d + B)) with g in * by (unfold g; lra).
  assert (N1 : xr' * xr' + xi' * xi' = xr * xr + xi * xi)
    by (apply (Rmult_eq_reg_l g); [lra | exact Hgne]).
  assert (N2 : yr' * yr' + yi' * yi' = yr * yr + yi * yi)
    by (apply (Rmult_eq_reg_l g); [lra | exact Hgne]).
  assert (N3 : xr' * yr' + xi' * yi' = xr * yr + xi * yi)
    by (apply (Rmult_eq_reg_l g); [lra | exact Hgne]).
  assert (N4 : xi' * yr' - xr' * yi' = xi * yr - xr * yi)
    by (apply (Rmult_eq_reg_l g); [lra | exact Hgne]).
  unfold proj; cbn [m00 m01 m10 m11 fst snd].
  f_equal; apply C_eq; cbn [Cmult Cconj re im]; lra.
Qed.

Lemma haldane_shift (kx ky D Bz Bz' : R) :
  haldane_magnon_hamiltonian kx ky D Bz
  = shift_diag ((Bz - Bz') * S) (haldane_magnon_hamiltonian kx ky D Bz').
Proof.
  unfold haldane_magnon_hamiltonian, shift_diag; cbn [m00 m01 m10 m11].
  f_equal; apply C_eq; cbn [Cplus RtoC re im]; ring.
Qed.

Section ZeemanField.

Variable eigh : Mat2 -> (R * R) * Mat2.
Hypothesis eigh_contract : band_solver eigh.

Lemma band0_projector_field (kx ky D Bz Bz' : R) :
  gap_open eigh (haldane_magnon_hamiltonian kx ky D Bz) ->
  gap_open eigh (haldane_magnon_hamiltonian kx ky D Bz') ->
  proj (col0 (snd (eigh (haldane_magnon_hamiltonian kx ky D Bz))))
  = proj (col0 (snd (eigh (haldane_magnon_hamiltonian kx ky D Bz')))).
Proof.
  intros Hg Hg'. rewrite (haldane_shift kx ky D Bz Bz') in *.
  apply band0_projector_shift; try assumption.
  - apply haldane_hermitian.
  - apply eigh_contract, haldane_hermitian.
  - apply eigh_contract, hermitian_shift_diag, haldane_hermitian.
Qed.

Lemma link_product_field (kx ky D Bz Bz' dk : R) :
  corners_gapped eigh D Bz kx ky dk ->
  corners_gapped eigh D Bz' kx ky dk ->
  link_product
    (snd (eigh (haldane_magnon_hamiltonian kx ky D Bz)))
    (snd (eigh (haldane_magnon_hamiltonian (kx + dk) ky D Bz)))
    (snd (eigh (haldane_magnon_hamiltonian kx (ky + dk) D Bz)))
    (snd (eigh (haldane_magnon_hamiltonian (kx + dk) (ky + dk) D Bz)))
  = link_product
      (snd (eigh (haldane_magnon_hamiltonian kx ky D Bz')))
      (snd (eigh (haldane_magnon_hamiltonian (kx + dk) ky D Bz')))
      (snd (eigh (haldane_magnon_hamiltonian kx (ky + dk) D Bz')))
      (snd (eigh (haldane_magnon_hamiltonian (kx + dk) (ky + dk) D Bz'))).
Proof.
  intros Hgap Hgap'.
  assert (G0 := Hgap (kx, ky) ltac:(simpl; auto)).
  assert (Gx := Hgap (kx + dk, ky) ltac:(simpl; auto)).
  assert (Gxy := Hgap (kx + dk, ky + dk) ltac:(simpl; auto)).
  assert (Gy := Hgap (kx, ky + dk) ltac:(simpl; auto)).
  assert (G0' := Hgap' (kx, ky) ltac:(simpl; auto)).
  assert (Gx' := Hgap' (kx + dk, ky) ltac:(simpl; auto)).
  assert (Gxy' := Hgap' (kx + dk, ky + dk) ltac:(simpl; auto)).
  assert (Gy' := Hgap' (kx, ky + dk) ltac:(simpl; auto)).
  cbn [fst snd] in *.
  unfold link_product. rewrite !link4_trace.
  rewrite (band0_projector_field kx ky D Bz Bz' G0 G0').
  rewrite (band0_projector_field (kx + dk) ky D Bz Bz' Gx Gx').
  rewrite (band0_projector_field (kx + dk) (ky + dk) D Bz Bz' Gxy Gxy').
  rewrite (band0_projector_field kx (ky + dk) D Bz Bz' Gy Gy').
  reflexivity.
Qed.

Lemma berry_curvature_field (kx ky D Bz Bz' dk : R) :
  corners_gapped eigh D Bz kx ky dk ->
  corners_gapped eigh D Bz' kx ky dk ->
  berry_curvature eigh kx ky D Bz dk = berry_curvature eigh kx ky D Bz' dk.
Proof.
  intros Hgap Hgap'. rewrite !berry_curvature_link.
  rewrite (link_product_field kx ky D Bz Bz' dk Hgap Hgap'). reflexivity.
Qed.

End ZeemanField.

Lemma fold_left_sum_ext_in {A : Type} (f f' : A -> R) (pts : list A)
    (acc : R) :
  (forall k, In k pts -> f k = f' k) ->
  fold_left (fun a k => a + f k) pts acc
  = fold_left (fun a k => a + f' k) pts acc.
Proof.
  revert acc; induction pts as [|k pts IH]; intros acc Hext.
  - reflexivity.
  - cbn [fold_left]. rewrite (Hext k) by (left; reflexivity).
    apply IH. intros k' Hk'. apply Hext. right; exact Hk'.
Qed.

(** X5: away from gap closings the Zeeman field does not enter the result.
    For a solver that meets its contract and a grid all of whose plaquettes
    are regular at both fields (two distinct bands at every corner, link
    product off the branch cut of the logarithm), [chern_number] returns the
    same for [Bz] and for [Bz']: the field only adds [Bz*S] to both diagonal
    entries, which moves the eigenvalues and leaves the eigenvectors'
    projector in place. *)
Theorem chern_number_field_independent
    (eigh : Mat2 -> (R * R) * Mat2) (D Bz Bz' : R) (nk : Z) :
  band_solver eigh ->
  (forall pts k, chern_samples nk = Ok pts -> In k pts ->
     plaquette_regular eigh D Bz (fst k) (snd k) (2 * PI / IZR nk) /\
     plaquette_regular eigh D Bz' (fst k) (snd k) (2 * PI / IZR nk)) ->
  chern_number eigh D Bz nk = chern_number eigh D Bz' nk.
Proof.
  intros Hsolver Hreg. rewrite !chern_number_over_samples.
  destruct (chern_samples nk) as [pts|e] eqn:Hpts; [|reflexivity].
  cbn [bind]. unfold py_div_int.
  destruct (nk =? 0)%Z; [reflexivity|]. cbn [bind].
  do 2 f_equal. apply fold_left_sum_ext_in. intros k Hk.
  destruct (Hreg pts k eq_refl Hk) as [[G _] [G' _]].
  rewrite (berry_curvature_field eigh Hsolver _ _ D Bz Bz' _
             (fun c Hc => proj1 (G c Hc)) (fun c Hc => proj1 (G' c Hc))).
  reflexivity.
Qed.

Lemma closed_form_gap (H : Mat2) :
  0 < (re (m00 H) - re (m11 H)) / 2 * ((re (m00 H) - re (m11 H)) / 2)
      + (re (m10 H) * re (m10 H) + im (m10 H) * im (m10 H)) ->
  gap_open eigh_closed_form H.
Proof.
  intros Hq. unfold gap_open, eigh_closed_form.
  set (q := (re (m00 H) - re (m11 H)) / 2 * ((re (m00 H) - re (m11 H)) / 2)
            + (re (m10 H) * re (m10 H) + im (m10 H) * im (m10 H))) in *.
  assert (Hrho : 0 < sqrt q) by (apply sqrt_lt_R0; exact Hq).
  destruct (Req_dec_T (sqrt q) 0); cbn [fst snd]; lra.
Qed.

Lemma gap_open_closed_form_field (kx ky D Bz : R) :
  0 < re (f_k kx ky) * re (f_k kx ky) + im (f_k kx ky) * im (f_k kx ky) ->
  gap_open eigh_closed_form (haldane_magnon_hamiltonian kx ky D Bz).
Proof.
  intros Hf. apply closed_form_gap.
  unfold haldane_magnon_hamiltonian, J, S;
    cbn [m00 m10 m11 RtoC Cconj Cmult re im].
  set (x := (Bz * 1 + 2 * (D * 1) * g_k kx ky
             - (Bz * 1 - 2 * (D * 1) * g_k kx ky)) / 2).
  pose proof (Rle_0_sqr x) as Hx. unfold Rsqr in Hx.
  destruct (f_k kx ky) as [fr fi]; cbn [re im] in *. nra.
Qed.

Lemma corners_gapped_at_two (D Bz : R) :
  corners_gapped eigh_closed_form D Bz (- PI) (- PI) (2 * PI / IZR 2).
Proof.
  replace (2 * PI / IZR 2) with PI by field.
  destruct corner_values as [F0 [_ [Fx [_ [Fy [_ [Fxy _]]]]]]].
  destruct corner_angle_facts as [Hc1 [Hc2 _]].
  cbv zeta in *.
  pose proof sqrt3_bounds as [Hq3 _].
  set (c := cos (PI * (sqrt 3 / 2))) in *.
  unfold corners_gapped, plaquette_cycle.
  replace (- PI + PI) with 0 by ring.
  intros k [<- | [<- | [<- | [<- | []]]]]; cbn [fst snd];
    apply gap_open_closed_form_field.
  - rewrite F0; cbn [re im]; nra.
  - rewrite Fx; cbn [re im]; nra.
  - rewrite Fxy; cbn [re im]; nra.
  - rewrite Fy; cbn [re im]; nra.
Qed.

(** ** Reversing the sign of D at any field *)

(** X6: the sign reversal holds at every Zeeman field, not only at zero
    field.  For [nk >= 1], a solver that meets its contract and a grid all
    of whose plaquettes are regular at field [Bz], [chern_number] returns at
    [-D] exactly the negative of what it returns at [D]. *)
Theorem chern_number_odd_in_dm
    (eigh : Mat2 -> (R * R) * Mat2) (D Bz : R) (nk : Z) :
  (1 <= nk)%Z ->
  band_solver eigh ->
  (forall pts k, chern_samples nk = Ok pts -> In k pts ->
     plaquette_regular eigh D Bz (fst k) (snd k) (2 * PI / IZR nk)) ->
  exists c,
    chern_number eigh D Bz nk = Ok c /\
    chern_number eigh (- D) Bz nk = Ok (- c).
Proof.
  intros Hnk Hsolver Hreg.
  rewrite !chern_number_over_samples.
  destruct (chern_samples_defined nk Hnk) as [pts Hpts]. rewrite Hpts.
  rewrite (py_div_int_defined _ nk Hnk). cbn [bind].
  set (dk := 2 * PI / IZR nk) in *.
  eexists; split; [reflexivity|].
  f_equal.
  rewrite (fold_left_sum_ext_in
             (fun k => berry_curvature eigh (fst k) (snd k) (- D) Bz dk * dk ^ 2)
             (fun k => - (berry_curvature eigh (fst k) (snd k) D Bz dk * dk ^ 2))).
  - rewrite <- Ropp_0 at 1.
    rewrite (fold_left_negated
               (fun k => berry_curvature eigh (fst k) (snd k) D Bz dk * dk ^ 2)
               (fun k => - (berry_curvature eigh (fst k) (snd k) D Bz dk * dk ^ 2)))
      by reflexivity.
    unfold Rdiv; ring.
  - intros k Hk.
    rewrite (berry_curvature_reversed eigh Hsolver)
      by (apply (Hreg pts); assumption).
    ring.
Qed.

Lemma plaquette_regular_at_two_field (Bz : R) :
  plaquette_regular eigh_closed_form 1 Bz (- PI) (- PI) (2 * PI / IZR 2).
Proof.
  split.
  - intros c Hc. split.
    + exact (corners_gapped_at_two 1 Bz c Hc).
    + exact (corners_gapped_at_two (- (1)) Bz c Hc).
  - rewrite (link_product_field eigh_closed_form eigh_closed_form_contract
               (- PI) (- PI) 1 Bz 0 (2 * PI / IZR 2)
               (corners_gapped_at_two 1 Bz) (corners_gapped_at_two 1 0)).
    exact (proj2 plaquette_regular_at_two).
Qed.

Lemma chern_number_field_independent_witness :
  band_solver eigh_closed_form /\
  (forall pts k, chern_samples 2 = Ok pts -> In k pts ->
     plaquette_regular eigh_closed_form 1 1 (fst k) (snd k) (2 * PI / IZR 2) /\
     plaquette_regular eigh_closed_form 1 0 (fst k) (snd k) (2 * PI / IZR 2)) /\
  chern_number eigh_closed_form 1 1 2 = chern_number eigh_closed_form 1 0 2.
Proof.
  assert (Hreg : forall pts k, chern_samples 2 = Ok pts -> In k pts ->
     plaquette_regular eigh_closed_form 1 1 (fst k) (snd k) (2 * PI / IZR 2) /\
     plaquette_regular eigh_closed_form 1 0 (fst k) (snd k) (2 * PI / IZR 2)).
  { intros pts k Hpts Hk. rewrite chern_samples_two in Hpts.
    injection Hpts as <-. destruct Hk as [<- | []].
    split; apply plaquette_regular_at_two_field. }
  split; [exact eigh_closed_form_contract|]. split; [exact Hreg|].
  exact (chern_number_field_independent eigh_closed_form 1 1 0 2
           eigh_closed_form_contract Hreg).
Defined.

Lemma chern_number_odd_in_dm_witness :
  (1 <= 2)%Z /\
  band_solver eigh_closed_form /\
  (forall pts k, chern_samples 2 = Ok pts -> In k pts ->
     plaquette_regular eigh_closed_form 1 1 (fst k) (snd k) (2 * PI / IZR 2)) /\
  exists c,
    chern_number eigh_closed_form 1 1 2 = Ok c /\
    chern_number eigh_closed_form (- (1)) 1 2 = Ok (- c).
Proof.
  assert (Hnk : (1 <= 2)%Z) by (intros Hgt; discriminate Hgt).
  assert (Hreg : forall pts k, chern_samples 2 = Ok pts -> In k pts ->
            plaquette_regular eigh_closed_form 1 1 (fst k) (snd k)
              (2 * PI / IZR 2)).
  { intros pts k Hpts Hk. rewrite chern_samples_two in Hpts.
    injection Hpts as <-. destruct Hk as [<- | []].
    exact (plaquette_regular_at_two_field 1). }
  split; [exact Hnk|]. split; [exact eigh_closed_form_contract|].
  split; [exact Hreg|].
  exact (chern_number_odd_in_dm eigh_closed_form 1 1 2 Hnk
           eigh_closed_form_contract Hreg).
Defined.

(** ** The trivial case at the resolution of the sweep

    At [D = 0] the two bands touch where [f_k = 0].  A plaquette that
    surrounds such a point has its link product on the negative real axis
    and adds [pi] to the sum, so [chern_number(0, 0, 30)] is not zero. *)

(** *** Numerical bounds *)

Lemma PI_bounds : 3 < PI <= 7 / 2.
Proof.
  pose proof PI2_3_2 as H1. pose proof pi2_int as [_ H2].
  unfold PI in *. lra.
Qed.



(** *** No band touching at a plaquette corner

    [f_k] vanishes only where [sin (3 kx / 2) = 0], that is at
    [kx = 2 m pi / 3]; the corners of the plaquettes at [nk = 30] have
    [kx = (2 i / 29 - 1) pi] or [kx = (2 i / 29 - 1) pi + pi / 15], which is
    never of that form. *)

Lemma f_k_factored (kx ky : R) :
  f_k kx ky
  = mkC (cos kx + 2 * cos (kx / 2) * cos (ky * (sqrt 3 / 2)))
        (sin kx - 2 * sin (kx / 2) * cos (ky * (sqrt 3 / 2))).
Proof.
  rewrite f_k_explicit.
  replace (- (ky * (sqrt 3 / 2)) - kx / 2)
    with (- (ky * (sqrt 3 / 2) + kx / 2)) by ring.
  rewrite cos_neg, sin_neg, cos_minus, cos_plus, sin_minus, sin_plus.
  apply C_eq; cbn [re im]; ring.
Qed.

Lemma f_k_norm_pos (kx ky : R) :
  sin (3 * (kx / 2)) <> 0 ->
  0 < re (f_k kx ky) * re (f_k kx ky) + im (f_k kx ky) * im (f_k kx ky).
Proof.
  intros Hs. rewrite f_k_factored; cbn [re im].
  set (c := cos (ky * (sqrt 3 / 2))).
  set (fr := cos kx + 2 * cos (kx / 2) * c).
  set (fi := sin kx - 2 * sin (kx / 2) * c).
  assert (Hsin : sin (3 * (kx / 2)) = fi * cos (kx / 2) + fr * sin (kx / 2)).
  { replace (3 * (kx / 2)) with (kx + kx / 2) by field.
    rewrite sin_plus. unfold fr, fi. ring. }
  pose proof (Rle_0_sqr fr) as Hr. pose proof (Rle_0_sqr fi) as Hi.
  unfold Rsqr in Hr, Hi.
  destruct (Req_dec (fr * fr + fi * fi) 0) as [H0 | H0]; [|lra].
  exfalso. apply Hs.
  assert (Hfr : fr = 0) by nra. assert (Hfi : fi = 0) by nra.
  rewrite Hsin, Hfr, Hfi. ring.
Qed.






(** *** The plaquette around a band-touching point

    [f_k] vanishes at (0, 4 pi / (3 sqrt 3)), inside the plaquette of the
    sample (-pi/29, 21 pi/29).  Going round its corners, [f_k] turns once
    around zero: each of the four links has positive real and imaginary
    part, so their product, a real number, is negative. *)








Lemma corner_radius (g fr fi : R) :
  0 < fr * fr + fi * fi ->
  let r := sqrt (2 * 0 * g * (2 * 0 * g) + (fr * fr + fi * fi)) + 2 * 0 * g in
  0 < r /\ r * r = fr * fr + fi * fi.
Proof.
  intros Hf r. unfold r.
  replace (2 * 0 * g * (2 * 0 * g) + (fr * fr + fi * fi))
    with (fr * fr + fi * fi) by ring.
  replace (2 * 0 * g) with 0 by ring. rewrite Rplus_0_r.
  split; [apply sqrt_lt_R0; exact Hf | apply sqrt_sqrt; lra].
Qed.



(** *** The sum of the integrator *)







(** ** Symmetries of the Bloch Hamiltonian *)

Lemma f_k_inversion (kx ky : R) : f_k (- kx) (- ky) = Cconj (f_k kx ky).
Proof.
  rewrite !f_k_explicit.
  replace (- ky * (sqrt 3 / 2) - - kx / 2)
    with (- (ky * (sqrt 3 / 2) - kx / 2)) by field.
  replace (- (- ky * (sqrt 3 / 2)) - - kx / 2)
    with (- (- (ky * (sqrt 3 / 2)) - kx / 2)) by field.
  rewrite !cos_neg, !sin_neg.
  apply C_eq; cbn [Cconj re im]; ring.
Qed.

Lemma g_k_inversion (kx ky : R) : g_k (- kx) (- ky) = - g_k kx ky.
Proof.
  rewrite !g_k_explicit.
  replace (3 * (- kx / 2) - - ky * (sqrt 3 / 2))
    with (- (3 * (kx / 2) - ky * (sqrt 3 / 2))) by field.
  replace (2 * (- ky * (sqrt 3 / 2))) with (- (2 * (ky * (sqrt 3 / 2))))
    by field.
  replace (- (3 * (- kx / 2)) - - ky * (sqrt 3 / 2))
    with (- (- (3 * (kx / 2)) - ky * (sqrt 3 / 2))) by field.
  rewrite !sin_neg. ring.
Qed.

(** X8: inverting the wavevector is the same as reversing the sign of [D]
    and conjugating every entry:
    [H(-kx, -ky, D, Bz) = conj (H(kx, ky, -D, Bz))]. *)
Theorem haldane_inversion (kx ky D Bz : R) :
  haldane_magnon_hamiltonian (- kx) (- ky) D Bz
  = mat_conj (haldane_magnon_hamiltonian kx ky (- D) Bz).
Proof.
  unfold haldane_magnon_hamiltonian, mat_conj; cbn [m00 m01 m10 m11].
  rewrite f_k_inversion, g_k_inversion.
  f_equal; apply C_eq; cbn [Cconj Cmult RtoC re im]; ring.
Qed.

Lemma sin_plus_2PI (x : R) : sin (x + 2 * PI) = sin x.
Proof. rewrite sin_plus, cos_2PI, sin_2PI. ring. Qed.

Lemma cos_plus_2PI (x : R) : cos (x + 2 * PI) = cos x.
Proof. rewrite cos_plus, cos_2PI, sin_2PI. ring. Qed.

Lemma sin_minus_2PI (x : R) : sin (x - 2 * PI) = sin x.
Proof. rewrite sin_minus, cos_2PI, sin_2PI. ring. Qed.

Lemma cos_minus_2PI (x : R) : cos (x - 2 * PI) = cos x.
Proof. rewrite cos_minus, cos_2PI, sin_2PI. ring. Qed.

Lemma sqrt3_neq_0 : sqrt 3 <> 0.
Proof. pose proof sqrt3_bounds. lra. Qed.

Lemma structure_factors_period_1 (kx ky : R) :
  f_k (kx + 2 * PI) (ky + 2 * PI / sqrt 3) = f_k kx ky /\
  g_k (kx + 2 * PI) (ky + 2 * PI / sqrt 3) = g_k kx ky.
Proof.
  pose proof sqrt3_neq_0 as H3.
  rewrite !f_k_explicit, !g_k_explicit.
  replace ((ky + 2 * PI / sqrt 3) * (sqrt 3 / 2) - (kx + 2 * PI) / 2)
    with (ky * (sqrt 3 / 2) - kx / 2) by (field; exact H3).
  replace (- ((ky + 2 * PI / sqrt 3) * (sqrt 3 / 2)) - (kx + 2 * PI) / 2)
    with (- (ky * (sqrt 3 / 2)) - kx / 2 - 2 * PI) by (field; exact H3).
  replace (3 * ((kx + 2 * PI) / 2) - (ky + 2 * PI / sqrt 3) * (sqrt 3 / 2))
    with (3 * (kx / 2) - ky * (sqrt 3 / 2) + 2 * PI) by (field; exact H3).
  replace (2 * ((ky + 2 * PI / sqrt 3) * (sqrt 3 / 2)))
    with (2 * (ky * (sqrt 3 / 2)) + 2 * PI) by (field; exact H3).
  replace (- (3 * ((kx + 2 * PI) / 2)) - (ky + 2 * PI / sqrt 3) * (sqrt 3 / 2))
    with (- (3 * (kx / 2)) - ky * (sqrt 3 / 2) - 2 * PI - 2 * PI)
    by (field; exact H3).
  rewrite !sin_plus_2PI, !cos_plus_2PI, !sin_minus_2PI, !cos_minus_2PI.
  split; reflexivity.
Qed.

Lemma structure_factors_period_2 (kx ky : R) :
  f_k kx (ky + 4 * PI / sqrt 3) = f_k kx ky /\
  g_k kx (ky + 4 * PI / sqrt 3) = g_k kx ky.
Proof.
  pose proof sqrt3_neq_0 as H3.
  rewrite !f_k_explicit, !g_k_explicit.
  replace ((ky + 4 * PI / sqrt 3) * (sqrt 3 / 2) - kx / 2)
    with (ky * (sqrt 3 / 2) - kx / 2 + 2 * PI) by (field; exact H3).
  replace (- ((ky + 4 * PI / sqrt 3) * (sqrt 3 / 2)) - kx / 2)
    with (- (ky * (sqrt 3 / 2)) - kx / 2 - 2 * PI) by (field; exact H3).
  replace (3 * (kx / 2) - (ky + 4 * PI / sqrt 3) * (sqrt 3 / 2))
    with (3 * (kx / 2) - ky * (sqrt 3 / 2) - 2 * PI) by (field; exact H3).
  replace (2 * ((ky + 4 * PI / sqrt 3) * (sqrt 3 / 2)))
    with (2 * (ky * (sqrt 3 / 2)) + 2 * PI + 2 * PI) by (field; exact H3).
  replace (- (3 * (kx / 2)) - (ky + 4 * PI / sqrt 3) * (sqrt 3 / 2))
    with (- (3 * (kx / 2)) - ky * (sqrt 3 / 2) - 2 * PI) by (field; exact H3).
  rewrite !sin_plus_2PI, !cos_plus_2PI, !sin_minus_2PI, !cos_minus_2PI.
  split; reflexivity.
Qed.

Lemma f_k_at_2PI : f_k (2 * PI) 0 = mkC (-1) 0.
Proof.
  rewrite f_k_explicit.
  replace (0 * (sqrt 3 / 2) - 2 * PI / 2) with (- PI) by field.
  replace (- (0 * (sqrt 3 / 2)) - 2 * PI / 2) with (- PI) by field.
  rewrite cos_2PI, sin_2PI, cos_neg, sin_neg, cos_PI, sin_PI.
  apply C_eq; cbn [re im]; ring.
Qed.

(** X9: the Hamiltonian has the periods of the honeycomb reciprocal
    lattice, [(2*pi, 2*pi/sqrt 3)] and [(0, 4*pi/sqrt 3)], and [2*pi] is not
    a period in [kx]: the square [-pi, pi)^2 over which [chern_number] sums
    is not a period cell of [haldane_magnon_hamiltonian]. *)
Theorem haldane_periods (D Bz : R) :
  (forall kx ky,
     haldane_magnon_hamiltonian (kx + 2 * PI) (ky + 2 * PI / sqrt 3) D Bz
     = haldane_magnon_hamiltonian kx ky D Bz) /\
  (forall kx ky,
     haldane_magnon_hamiltonian kx (ky + 4 * PI / sqrt 3) D Bz
     = haldane_magnon_hamiltonian kx ky D Bz) /\
  ~ (forall kx ky,
       haldane_magnon_hamiltonian (kx + 2 * PI) ky D Bz
       = haldane_magnon_hamiltonian kx ky D Bz).
Proof.
  split; [|split].
  - intros kx ky. unfold haldane_magnon_hamiltonian.
    destruct (structure_factors_period_1 kx ky) as [-> ->]. reflexivity.
  - intros kx ky. unfold haldane_magnon_hamiltonian.
    destruct (structure_factors_period_2 kx ky) as [-> ->]. reflexivity.
  - intros Hper. specialize (Hper 0 0).
    apply (f_equal m01) in Hper.
    unfold haldane_magnon_hamiltonian in Hper; cbn [m01] in Hper.
    replace (0 + 2 * PI) with (2 * PI) in Hper by ring.
    rewrite f_k_at_2PI in Hper.
    destruct corner_values as [_ [_ [_ [_ [_ [_ [Fxy _]]]]]]].
    rewrite Fxy in Hper.
    apply (f_equal re) in Hper. unfold J, S in Hper.
    cbn [Cmult RtoC re im] in Hper. lra.
Qed.

(** ** The trivial case away from the branch cut *)

Lemma atan2_nonnegative_real (x : R) : 0 <= x -> atan2 0 x = 0.
Proof.
  intros Hx. unfold atan2.
  replace (0 / x) with 0 by (unfold Rdiv; ring). rewrite atan_0.
  destruct (Rlt_dec 0 x) as [_ | _]; [reflexivity|].
  destruct (Rlt_dec x 0) as [H | _]; [lra|].
  destruct (Rlt_dec 0 0) as [H | _]; [lra|]. reflexivity.
Qed.

(** X7: the trivial case, plaquette by plaquette.  At [D = 0], for a solver
    that meets its contract, a plaquette whose four corners have two
    distinct bands and whose link product is off the branch cut of the
    logarithm has curvature 0: its link product is a real number that is
    not negative. *)
Theorem berry_curvature_trivial_case
    (eigh : Mat2 -> (R * R) * Mat2) (Bz kx ky dk : R) :
  band_solver eigh ->
  corners_gapped eigh 0 Bz kx ky dk ->
  ~ on_branch_cut
      (link_product
         (snd (eigh (haldane_magnon_hamiltonian kx ky 0 Bz)))
         (snd (eigh (haldane_magnon_hamiltonian (kx + dk) ky 0 Bz)))
         (snd (eigh (haldane_magnon_hamiltonian kx (ky + dk) 0 Bz)))
         (snd (eigh (haldane_magnon_hamiltonian (kx + dk) (ky + dk) 0 Bz)))) ->
  berry_curvature eigh kx ky 0 Bz dk = 0.
Proof.
  intros Hsolver Hgap Hcut.
  pose proof (link_product_real_without_dm eigh Hsolver kx ky Bz dk Hgap)
    as Hreal.
  rewrite berry_curvature_link. unfold np_imag, Clog. cbn [im].
  set (LP := link_product _ _ _ _) in *.
  rewrite Hreal, atan2_nonnegative_real.
  - unfold Rdiv. ring.
  - destruct (Rle_dec 0 (re LP)) as [H | H]; [exact H|].
    exfalso. apply Hcut. split; [exact Hreal | lra].
Qed.

Lemma f_k_even (kx ky : R) : f_k kx (- ky) = f_k kx ky.
Proof.
  rewrite !f_k_factored.
  replace (- ky * (sqrt 3 / 2)) with (- (ky * (sqrt 3 / 2))) by ring.
  rewrite cos_neg. reflexivity.
Qed.

Lemma same_radius (r r' q q' : R) :
  0 < r -> 0 < r' -> r * r = q -> r' * r' = q' -> q = q' -> r = r'.
Proof.
  intros Hr Hr' E E' Hq.
  assert (H : (r - r') * (r + r') = 0) by (rewrite Hq, <- E' in E; nra).
  apply Rmult_integral in H. destruct H; lra.
Qed.

Lemma symmetric_links (a b r : R) :
  re (link4 (mkC a (- b), RtoC (- r)) (mkC a b, RtoC (- r))
            (mkC a (- b), RtoC (- r)) (mkC a b, RtoC (- r)))
  = ((a * a - b * b + r * r) * (a * a - b * b + r * r)
     + 2 * a * b * (2 * a * b))
    * ((a * a + b * b + r * r) * (a * a + b * b + r * r)).
Proof.
  unfold link4, np_vdot. cbn [fst snd Cmult Cplus Cconj RtoC re im]. ring.
Qed.

(** the plaquette with corners (-1/2, -1/2) and (1/2, 1/2) is regular at
    [D = 0]: across the origin the structure factor is conjugated, so the
    four links multiply to a square *)
Lemma plaquette_at_origin :
  corners_gapped eigh_closed_form 0 0 (- (1 / 2)) (- (1 / 2)) 1 /\
  ~ on_branch_cut
      (link_product
         (snd (eigh_closed_form
                 (haldane_magnon_hamiltonian (- (1 / 2)) (- (1 / 2)) 0 0)))
         (snd (eigh_closed_form
                 (haldane_magnon_hamiltonian (- (1 / 2) + 1) (- (1 / 2)) 0 0)))
         (snd (eigh_closed_form
                 (haldane_magnon_hamiltonian (- (1 / 2)) (- (1 / 2) + 1) 0 0)))
         (snd (eigh_closed_form
                 (haldane_magnon_hamiltonian (- (1 / 2) + 1) (- (1 / 2) + 1)
                    0 0)))).
Proof.
  pose proof PI_bounds as [Hp1 Hp2].
  replace (- (1 / 2) + 1) with (1 / 2) by lra.
  set (h := 1 / 2).
  assert (Hn1 : sin (3 * (h / 2)) <> 0).
  { assert (0 < sin (3 * (h / 2))) by (apply sin_gt_0; unfold h; lra). lra. }
  assert (Hn2 : sin (3 * (- h / 2)) <> 0).
  { replace (3 * (- h / 2)) with (- (3 * (h / 2))) by field.
    rewrite sin_neg. lra. }
  pose proof (f_k_norm_pos h h Hn1) as Nxy.
  pose proof (f_k_norm_pos h (- h) Hn1) as Nx.
  pose proof (f_k_norm_pos (- h) h Hn2) as Ny.
  pose proof (f_k_norm_pos (- h) (- h) Hn2) as N0.
  assert (Hgap : corners_gapped eigh_closed_form 0 0 (- h) (- h) 1).
  { unfold corners_gapped, plaquette_cycle.
    replace (- h + 1) with h by (unfold h; lra).
    intros c [<- | [<- | [<- | [<- | []]]]]; cbn [fst snd];
      apply gap_open_closed_form_field; assumption. }
  split.
  { replace 1 with (h + h) at 3 by (unfold h; lra). unfold h in *.
    replace (1 / 2 + 1 / 2) with 1 by lra. exact Hgap. }
  assert (Hsplit : forall z : C, z = mkC (re z) (im z))
    by (intros [zr zi]; reflexivity).
  assert (Fx : f_k h (- h) = f_k h h) by apply f_k_even.
  assert (F0 : f_k (- h) (- h) = Cconj (f_k h h)) by apply f_k_inversion.
  assert (Fy : f_k (- h) h = Cconj (f_k h h)).
  { rewrite <- (f_k_even (- h) h). exact F0. }
  set (a := re (f_k h h)) in *. set (b := im (f_k h h)) in *.
  assert (Fxy' : f_k h h = mkC a b) by apply Hsplit.
  assert (Fx' : f_k h (- h) = mkC a b) by (rewrite Fx; exact Fxy').
  assert (F0' : f_k (- h) (- h) = mkC a (- b))
    by (rewrite F0, Fxy'; reflexivity).
  assert (Fy' : f_k (- h) h = mkC a (- b))
    by (rewrite Fy, Fxy'; reflexivity).
  assert (Nab : 0 < a * a + b * b) by exact Nxy.
  assert (Nab' : 0 < a * a + - b * - b) by nra.
  destruct (closed_form_corner (- h) (- h) 0 _ _ _ F0' eq_refl Nab')
    as [G0 [E0 M0]].
  destruct (closed_form_corner h (- h) 0 _ _ _ Fx' eq_refl Nab)
    as [Gx [Ex Mx]].
  destruct (closed_form_corner (- h) h 0 _ _ _ Fy' eq_refl Nab')
    as [Gy [Ey My]].
  destruct (closed_form_corner h h 0 _ _ _ Fxy' eq_refl Nab)
    as [Gxy [Exy Mxy]].
  destruct (corner_radius (g_k (- h) (- h)) _ _ Nab') as [R0 Q0].
  destruct (corner_radius (g_k h (- h)) _ _ Nab) as [Rx Qx].
  destruct (corner_radius (g_k (- h) h) _ _ Nab') as [Ry Qy].
  destruct (corner_radius (g_k h h) _ _ Nab) as [Rxy Qxy].
  pose proof (link_product_of_eigenvectors eigh_closed_form _ _ _ _ _ _ _ _
                eigh_closed_form_contract
                (haldane_hermitian (- h) (- h) 0 0)
                (haldane_hermitian h (- h) 0 0)
                (haldane_hermitian (- h) h 0 0)
                (haldane_hermitian h h 0 0)
                G0 Gx Gy Gxy E0 Ex Ey Exy) as Hlink.
  cbv zeta in Hlink.
  set (LP := link_product _ _ _ _) in *.
  match type of Hlink with _ = (RtoC ?n * LP)%C =>
    assert (Hn : 0 < n) by (repeat apply Rmult_lt_0_compat; assumption);
    set (nn := n) in *
  end.
  set (r := sqrt (2 * 0 * g_k h h * (2 * 0 * g_k h h) + (a * a + b * b))
            + 2 * 0 * g_k h h) in *.
  assert (Qab : a * a + - b * - b = a * a + b * b) by ring.
  rewrite (same_radius _ r _ _ R0 Rxy Q0 Qxy Qab) in Hlink.
  rewrite (same_radius _ r _ _ Rx Rxy Qx Qxy eq_refl) in Hlink.
  rewrite (same_radius _ r _ _ Ry Rxy Qy Qxy Qab) in Hlink.
  apply (f_equal re) in Hlink. rewrite symmetric_links in Hlink.
  cbn [Cmult RtoC re im] in Hlink.
  intros [Hi Hre].
  assert (Hneg : nn * re LP < 0).
  { replace (nn * re LP) with (- (nn * (- re LP))) by ring.
    assert (0 < nn * (- re LP)) by (apply Rmult_lt_0_compat; lra). lra. }
  assert (Hpos : 0 <= ((a * a - b * b + r * r) * (a * a - b * b + r * r)
                       + 2 * a * b * (2 * a * b))
                      * ((a * a + b * b + r * r) * (a * a + b * b + r * r))).
  { apply Rmult_le_pos.
    - pose proof (Rle_0_sqr (a * a - b * b + r * r)) as H1.
      pose proof (Rle_0_sqr (2 * a * b)) as H2. unfold Rsqr in H1, H2. lra.
    - pose proof (Rle_0_sqr (a * a + b * b + r * r)) as H1.
      unfold Rsqr in H1. exact H1. }
  lra.
Qed.

Lemma berry_curvature_trivial_case_witness :
  band_solver eigh_closed_form /\
  corners_gapped eigh_closed_form 0 0 (- (1 / 2)) (- (1 / 2)) 1 /\
  ~ on_branch_cut
      (link_product
         (snd (eigh_closed_form
                 (haldane_magnon_hamiltonian (- (1 / 2)) (- (1 / 2)) 0 0)))
         (snd (eigh_closed_form
                 (haldane_magnon_hamiltonian (- (1 / 2) + 1) (- (1 / 2)) 0 0)))
         (snd (eigh_closed_form
                 (haldane_magnon_hamiltonian (- (1 / 2)) (- (1 / 2) + 1) 0 0)))
         (snd (eigh_closed_form
                 (haldane_magnon_hamiltonian (- (1 / 2) + 1) (- (1 / 2) + 1)
                    0 0)))) /\
  berry_curvature eigh_closed_form (- (1 / 2)) (- (1 / 2)) 0 0 1 = 0.
Proof.
  destruct plaquette_at_origin as [Hgap Hcut].
  split; [exact eigh_closed_form_contract|]. split; [exact Hgap|].
  split; [exact Hcut|].
  exact (berry_curvature_trivial_case eigh_closed_form 0
           (- (1 / 2)) (- (1 / 2)) 1 eigh_closed_form_contract Hgap Hcut).
Defined.

(** ** The two bands *)

Lemma eigh_closed_form_values (H : Mat2) :
  fst (eigh_closed_form H)
  = ((re (m00 H) + re (m11 H)) / 2
     - sqrt ((re (m00 H) - re (m11 H)) / 2 * ((re (m00 H) - re (m11 H)) / 2)
             + (re (m10 H) * re (m10 H) + im (m10 H) * im (m10 H))),
     (re (m00 H) + re (m11 H)) / 2
     + sqrt ((re (m00 H) - re (m11 H)) / 2 * ((re (m00 H) - re (m11 H)) / 2)
             + (re (m10 H) * re (m10 H) + im (m10 H) * im (m10 H)))).
Proof.
  unfold eigh_closed_form.
  destruct (Req_dec_T _ 0); reflexivity.
Qed.

Lemma haldane_closed_form_values (kx ky D Bz : R) :
  fst (eigh_closed_form (haldane_magnon_hamiltonian kx ky D Bz))
  = (Bz * S - band_splitting kx ky D, Bz * S + band_splitting kx ky D).
Proof.
  rewrite eigh_closed_form_values. unfold band_splitting.
  unfold haldane_magnon_hamiltonian; cbn [m00 m10 m11 RtoC Cconj Cmult re im].
  match goal with |- (_ - sqrt ?q, _) = (_ - sqrt ?q', _) =>
    replace q with q' by field end.
  f_equal; field.
Qed.

(** X10: the band energies.  A real number [w] is an eigenvalue of
    [haldane_magnon_hamiltonian(kx, ky, D, Bz)] exactly when it is
    [Bz*S - r] or [Bz*S + r], with
    [r = sqrt ((2*t2*g(k))^2 + (t*|f(k)|)^2)], [t = J*S], [t2 = D*S]. *)
Theorem haldane_spectrum (kx ky D Bz w : R) :
  (exists v, eigenpair (haldane_magnon_hamiltonian kx ky D Bz) w v) <->
  (w = Bz * S - band_splitting kx ky D \/
   w = Bz * S + band_splitting kx ky D).
Proof.
  split.
  - intros [v Hv].
    apply (eigenpair_real _ _ _ (haldane_hermitian kx ky D Bz)) in Hv.
    cbv zeta in Hv. destruct Hv as [E1 [E2 [E3 [E4 N]]]].
    destruct (projector_identities _ _ _ _ _ _ _ _ _ E1 E2 E3 E4 N)
      as [_ [_ [_ [_ Hchar]]]].
    unfold haldane_magnon_hamiltonian in Hchar;
      cbn [m00 m01 m11 RtoC Cmult re im] in Hchar.
    set (r := band_splitting kx ky D).
    assert (Hr : 0 <= r) by apply sqrt_pos.
    assert (Hrr : r * r
                  = 2 * (D * S) * g_k kx ky * (2 * (D * S) * g_k kx ky)
                    + (J * S) * (J * S)
                      * (re (f_k kx ky) * re (f_k kx ky)
                         + im (f_k kx ky) * im (f_k kx ky))).
    { unfold r, band_splitting. apply sqrt_sqrt.
      pose proof (Rle_0_sqr (2 * (D * S) * g_k kx ky)) as Q1.
      pose proof (Rle_0_sqr (J * S)) as Q2.
      pose proof (Rle_0_sqr (re (f_k kx ky))) as Q3.
      pose proof (Rle_0_sqr (im (f_k kx ky))) as Q4.
      unfold Rsqr in *. nra. }
    assert (Hz : (w - (Bz * S - r)) * (w - (Bz * S + r)) = 0) by nsatz.
    apply Rmult_integral in Hz. destruct Hz; [left | right]; lra.
  - pose proof (eigh_closed_form_contract _ (haldane_hermitian kx ky D Bz))
      as [_ [Hp0 Hp1]].
    rewrite haldane_closed_form_values in Hp0, Hp1. cbn [fst snd] in Hp0, Hp1.
    intros [-> | ->]; eexists; eassumption.
Qed.

(** ** The grid of the sweep *)

Lemma for_each_Ok_iff {A B : Type} (body : A -> result B) (l : list A)
    (bs : list B) :
  for_each body l = Ok bs <-> Forall2 (fun a b => body a = Ok b) l bs.
Proof.
  revert bs; induction l as [|a l IH]; intros bs; cbn [for_each].
  - split.
    + intros Heq. injection Heq as <-. constructor.
    + intros HF. inversion HF. reflexivity.
  - split.
    + destruct (body a) as [b|e] eqn:Hb; cbn [bind]; [|discriminate].
      destruct (for_each body l) as [bs'|e]; cbn [bind]; [|discriminate].
      intros Heq. injection Heq as <-.
      constructor; [exact Hb | apply IH; reflexivity].
    + intros HF. inversion HF as [|a' b l' bs' Hb HF' Ea Eb]; subst.
      rewrite Hb. cbn [bind].
      apply IH in HF'. rewrite HF'. reflexivity.
Qed.

Lemma for_each_total {A B : Type} (body : A -> result B) (l : list A) :
  (forall a, In a l -> exists b, body a = Ok b) ->
  exists bs, for_each body l = Ok bs.
Proof.
  induction l as [|a l IH]; intros Hok.
  - eexists; reflexivity.
  - destruct (Hok a (or_introl eq_refl)) as [b Hb].
    destruct (IH (fun a' Ha' => Hok a' (or_intror Ha'))) as [bs Hbs].
    exists (b :: bs). cbn [for_each]. rewrite Hb, Hbs. reflexivity.
Qed.

Lemma Forall2_nth_error {A B : Type} (P : A -> B -> Prop) (l : list A)
    (bs : list B) (i : nat) (a : A) :
  Forall2 P l bs -> nth_error l i = Some a ->
  exists b, nth_error bs i = Some b /\ P a b.
Proof.
  intros HF. revert i. induction HF as [|a' b' l' bs' Hab HF IH]; intros i Hi.
  - destruct i; discriminate Hi.
  - destruct i as [|i]; cbn [nth_error] in *.
    + injection Hi as <-. exists b'. split; [reflexivity | exact Hab].
    + apply IH. exact Hi.
Qed.

Lemma Forall2_length_eq {A B : Type} (P : A -> B -> Prop) (l : list A)
    (bs : list B) :
  Forall2 P l bs -> length bs = length l.
Proof.
  induction 1 as [|a b l bs _ _ IH]; cbn [length]; congruence.
Qed.

Section SweepGrid.

Variable eigh : Mat2 -> (R * R) * Mat2.

Lemma sweep_returns (D_vals Bz_vals : list R) (nk : Z) :
  (1 <= nk)%Z -> exists grid, sweep eigh D_vals Bz_vals nk = Ok grid.
Proof.
  intros Hnk.
  assert (Hrow : forall D, exists row,
             for_each (fun Bz => chern_number eigh D Bz nk) Bz_vals = Ok row).
  { intros D. apply for_each_total. intros Bz _.
    rewrite chern_number_over_samples.
    destruct (chern_samples_defined nk Hnk) as [pts ->].
    rewrite (py_div_int_defined _ nk Hnk). cbn [bind].
    eexists; reflexivity. }
  exact (for_each_total
           (fun D => for_each (fun Bz => chern_number eigh D Bz nk) Bz_vals)
           D_vals (fun D _ => Hrow D)).
Qed.

(** X11: for [nk >= 1] the sweep returns a grid with one row per D value and
    one column per Bz value, in the order of the two ranges: the entry in
    row [i], column [j] is what [chern_number(D_vals[i], Bz_vals[j], nk)]
    returns. *)
Theorem sweep_grid (D_vals Bz_vals : list R) (nk : Z) :
  (1 <= nk)%Z ->
  exists grid,
    sweep eigh D_vals Bz_vals nk = Ok grid /\
    length grid = length D_vals /\
    (forall row, In row grid -> length row = length Bz_vals) /\
    (forall i j D Bz,
       nth_error D_vals i = Some D -> nth_error Bz_vals j = Some Bz ->
       exists row c,
         nth_error grid i = Some row /\ nth_error row j = Some c /\
         chern_number eigh D Bz nk = Ok c).
Proof.
  intros Hnk.
  destruct (sweep_returns D_vals Bz_vals nk Hnk) as [grid Hgrid].
  exists grid. split; [exact Hgrid|]. unfold sweep in Hgrid.
  apply for_each_Ok_iff in Hgrid.
  split; [exact (Forall2_length_eq _ _ _ Hgrid)|]. split.
  - intros row Hin.
    apply In_nth_error in Hin. destruct Hin as [i Hi].
    assert (Hlen : length grid = length D_vals)
      by exact (Forall2_length_eq _ _ _ Hgrid).
    assert (Hlt : (i < length D_vals)%nat).
    { rewrite <- Hlen. apply nth_error_Some. congruence. }
    destruct (nth_error D_vals i) as [D|] eqn:HD.
    2:{ apply nth_error_None in HD. lia. }
    destruct (Forall2_nth_error _ _ _ i D Hgrid HD) as [row' [Hr' Hbody]].
    assert (row' = row) by congruence. subst row'.
    apply for_each_Ok_iff in Hbody.
    exact (Forall2_length_eq _ _ _ Hbody).
  - intros i j D Bz HD HBz.
    destruct (Forall2_nth_error _ _ _ i D Hgrid HD) as [row [Hr Hbody]].
    apply for_each_Ok_iff in Hbody.
    destruct (Forall2_nth_error _ _ _ j Bz Hbody HBz) as [c [Hc Hchern]].
    exists row, c. repeat split; assumption.
Qed.

(** X12: the sweep raises exactly when [nk <= 0] and both ranges are
    non-empty; an invalid [nk] goes unnoticed when a range is empty. *)
Theorem sweep_raises_iff (D_vals Bz_vals : list R) (nk : Z) :
  (exists e, sweep eigh D_vals Bz_vals nk = Raise e) <->
  ((nk <= 0)%Z /\ D_vals <> [] /\ Bz_vals <> []).
Proof.
  split.
  - intros [e He].
    destruct (Z_le_gt_dec nk 0) as [H0 | H0].
    + split; [exact H0|]. split; intros ->.
      * discriminate He.
      * unfold sweep in He.
        assert (Hmap : for_each (fun D : R => for_each
                          (fun Bz => chern_number eigh D Bz nk) []) D_vals
                       = Ok (map (fun _ => []) D_vals)).
        { clear He. induction D_vals as [|D Ds IH]; [reflexivity|].
          cbn [for_each bind map] in *. rewrite IH. reflexivity. }
        rewrite Hmap in He. discriminate He.
    + destruct (sweep_returns D_vals Bz_vals nk ltac:(lia)) as [g Hg].
      rewrite Hg in He. discriminate He.
  - intros [Hnk [HD HB]].
    destruct D_vals as [|D Ds]; [contradiction|].
    destruct Bz_vals as [|Bz Bs]; [contradiction|].
    destruct (chern_number_raises eigh D Bz nk Hnk) as [e He].
    exists e. unfold sweep; cbn [for_each]. rewrite He. reflexivity.
Qed.

End SweepGrid.

Lemma sweep_grid_witness :
  (1 <= 2)%Z /\
  exists grid,
    sweep eigh_closed_form [0; 1] [0] 2 = Ok grid /\
    length grid = length [0; 1] /\
    (forall row, In row grid -> length row = length [0]) /\
    (forall i j D Bz,
       nth_error [0; 1] i = Some D -> nth_error [0] j = Some Bz ->
       exists row c,
         nth_error grid i = Some row /\ nth_error row j = Some c /\
         chern_number eigh_closed_form D Bz 2 = Ok c).
Proof.
  assert (H : (1 <= 2)%Z) by (intros Hgt; discriminate Hgt).
  split; [exact H|].
  exact (sweep_grid eigh_closed_form [0; 1] [0] 2 H).
Defined.

(** * The cavity transmission script *)

(** ** Complex division *)

Lemma Cnorm2_nonneg (z : C) : 0 <= Cnorm2 z.
Proof. unfold Cnorm2. nra. Qed.

Lemma Cnorm2_pos_im (z : C) : im z <> 0 -> 0 < Cnorm2 z.
Proof.
  unfold Cnorm2. intros H.
  destruct (Rtotal_order (im z) 0) as [Hlt | [Heq | Hgt]]; [nra | contradiction | nra].
Qed.

Lemma Cnorm2_pos_re (z : C) : re z <> 0 -> 0 < Cnorm2 z.
Proof.
  unfold Cnorm2. intros H.
  destruct (Rtotal_order (re z) 0) as [Hlt | [Heq | Hgt]]; [nra | contradiction | nra].
Qed.

Lemma Cmod_sqr (z : C) : Cmod z ^ 2 = Cnorm2 z.
Proof.
  unfold Cmod. simpl. rewrite Rmult_1_r. apply sqrt_sqrt.
  apply Cnorm2_nonneg.
Qed.

Lemma Cnorm2_mult (z w : C) : Cnorm2 (z * w) = Cnorm2 z * Cnorm2 w.
Proof. unfold Cnorm2. simpl. ring. Qed.

Lemma py_cdiv_Ok (z w : C) :
  0 < Cnorm2 w -> py_cdiv z w = Ok (z * Cinv w)%C.
Proof.
  intros H. unfold py_cdiv.
  destruct (Req_dec_T (re w) 0) as [Hr|]; [|reflexivity].
  destruct (Req_dec_T (im w) 0) as [Hi|]; [|reflexivity].
  unfold Cnorm2 in H. rewrite Hr, Hi in H. lra.
Qed.

Lemma py_cdiv_zero (z : C) : py_cdiv z (RtoC 0) = Raise ZeroDivisionError.
Proof.
  unfold py_cdiv. simpl.
  destruct (Req_dec_T 0 0) as [_ | H]; [reflexivity | contradiction H; reflexivity].
Qed.

Lemma Cinv_r (w : C) : 0 < Cnorm2 w -> (w * Cinv w)%C = RtoC 1.
Proof.
  intros H. apply C_eq; unfold Cinv, Cnorm2 in *; simpl; field; lra.
Qed.

Lemma Cnorm2_inv (w : C) :
  0 < Cnorm2 w -> Cnorm2 (RtoC 1 * Cinv w) = / Cnorm2 w.
Proof.
  intros H. rewrite Cnorm2_mult.
  replace (Cnorm2 (RtoC 1)) with 1 by (unfold Cnorm2; simpl; ring).
  unfold Cinv, Cnorm2 in *. simpl. field. lra.
Qed.

Lemma Cinv_involutive (w : C) :
  0 < Cnorm2 w -> (RtoC 1 * Cinv (RtoC 1 * Cinv w))%C = w.
Proof.
  intros H.
  assert (Hi : 0 < Cnorm2 (RtoC 1 * Cinv w)).
  { rewrite Cnorm2_inv by exact H. apply Rinv_0_lt_compat, H. }
  transitivity ((w * Cinv w) * (RtoC 1 * Cinv (RtoC 1 * Cinv w)))%C.
  - rewrite Cinv_r by exact H. ring.
  - transitivity (w * ((RtoC 1 * Cinv w) * Cinv (RtoC 1 * Cinv w)))%C;
      [ring|].
    rewrite Cinv_r by exact Hi. ring.
Qed.

Lemma py_div_Ok (x y : R) : y <> 0 -> py_div x y = Ok (x / y).
Proof.
  intros H. unfold py_div.
  destruct (Req_dec_T y 0); [contradiction | reflexivity].
Qed.

Lemma half_imaginary (x : R) :
  (Ci * RtoC x * Cinv (RtoC 2))%C = mkC 0 (x / 2).
Proof. apply C_eq; unfold Cinv, Cnorm2; simpl; field. Qed.

Lemma exp_neg_sqr (q : R) :
  0 < exp (- (q ^ 2)) <= 1 /\ (exp (- (q ^ 2)) = 1 <-> q = 0).
Proof.
  pose proof (exp_pos (- (q ^ 2))) as Hpos.
  destruct (Req_dec q 0) as [-> | Hq].
  - replace (- (0 ^ 2)) with 0 by ring. rewrite exp_0.
    split; [lra|]. split; reflexivity.
  - assert (Hlt : exp (- (q ^ 2)) < 1).
    { rewrite <- exp_0. apply exp_increasing.
      destruct (Rtotal_order q 0) as [H | [H | H]]; [nra | contradiction | nra]. }
    split; [lra|]. split; [lra | contradiction].
Qed.

Lemma transmission_norm (den : C) (k : R) :
  0 < Cnorm2 den ->
  Cnorm2 (RtoC 1 - Ci * RtoC k * (RtoC 1 * Cinv den)) =
  (re den * re den + (im den - k) * (im den - k)) / Cnorm2 den.
Proof.
  destruct den as [a b]. unfold Cinv, Cnorm2. simpl. intros H.
  field. lra.
Qed.

Section CavityTransmissionProperties.
Import CavityTransmission.

(** X13: the coupling factor of the transmission script.  For a width
    [sigma] other than zero it is returned, lies between 0 and 1, is 1 when
    sender and receiver carry the same Chern number, and is the same with
    sender and receiver exchanged. *)
Theorem topology_coupling_peak (C_send C_recv sigma : R) :
  sigma <> 0 ->
  exists v,
    topology_coupling C_send C_recv sigma = Ok v /\
    0 <= v <= 1 /\
    (C_send = C_recv -> v = 1) /\
    topology_coupling C_recv C_send sigma = Ok v.
Proof.
  intros Hs. unfold topology_coupling.
  rewrite !py_div_Ok by exact Hs. cbn [bind].
  exists (exp (- (((C_send - C_recv) / sigma) ^ 2))).
  destruct (exp_neg_sqr ((C_send - C_recv) / sigma)) as [Hr Hone].
  split; [reflexivity|]. split; [lra|]. split.
  - intros ->. apply Hone. unfold Rdiv. ring.
  - do 2 f_equal. f_equal. field. exact Hs.
Qed.

Lemma topology_coupling_default (C_send C_recv : R) :
  topology_coupling C_send C_recv 0.1 =
  Ok (exp (- (((C_send - C_recv) / 0.1) ^ 2))).
Proof.
  unfold topology_coupling. rewrite py_div_Ok by lra. reflexivity.
Qed.

(** X14: the cavity transmission in closed form.  For every drive
    frequency, Chern numbers and bare coupling, none of the five complex
    divisions meets a zero divisor and the value returned is
    [(A^2 + (B - kappa)^2) / (A^2 + B^2)], where [A + iB] is the dressed
    denominator [omega - omega_c + i kappa/2 - g^2 / (omega - omega_m + i
    gamma_m/2)]; it is not negative. *)
Theorem cavity_transmission_closed_form (omega C_send C_recv g0 : R) :
  let g := g0 * exp (- (((C_send - C_recv) / 0.1) ^ 2)) in
  let d_m := omega - omega_c * (1 + 0.001 * C_recv) in
  let n_m := d_m * d_m + gamma_m / 2 * (gamma_m / 2) in
  let A := omega - omega_c - g ^ 2 * d_m / n_m in
  let B := kappa / 2 + g ^ 2 * (gamma_m / 2) / n_m in
  0 < A * A + B * B /\
  0 <= (A * A + (B - kappa) * (B - kappa)) / (A * A + B * B) /\
  cavity_transmission omega C_send C_recv g0 =
  Ok ((A * A + (B - kappa) * (B - kappa)) / (A * A + B * B)).
Proof.
  intros g d_m n_m A B.
  assert (Hk : 0 < kappa) by (unfold kappa; lra).
  assert (Hg : 0 < gamma_m) by (unfold gamma_m; lra).
  assert (Hn : 0 < n_m) by (unfold n_m; nra).
  unfold cavity_transmission.
  rewrite topology_coupling_default. cbn [bind]. fold g. fold d_m.
  rewrite (py_cdiv_Ok (Ci * RtoC kappa) (RtoC 2))
    by (apply Cnorm2_pos_re; simpl; lra).
  cbn [bind]. rewrite half_imaginary.
  assert (Hc : 0 < Cnorm2 (RtoC (omega - omega_c) + mkC 0 (kappa / 2))).
  { apply Cnorm2_pos_im. simpl. lra. }
  rewrite (py_cdiv_Ok _ _ Hc). cbn [bind].
  rewrite (py_cdiv_Ok (Ci * RtoC gamma_m) (RtoC 2))
    by (apply Cnorm2_pos_re; simpl; lra).
  cbn [bind]. rewrite half_imaginary.
  assert (Hm : 0 < Cnorm2 (RtoC d_m + mkC 0 (gamma_m / 2))).
  { apply Cnorm2_pos_im. simpl. lra. }
  rewrite (py_cdiv_Ok _ _ Hm). cbn [bind].
  rewrite (py_cdiv_Ok (RtoC 1) (RtoC 1 * Cinv _)).
  2:{ rewrite Cnorm2_inv by exact Hc. apply Rinv_0_lt_compat, Hc. }
  cbn [bind]. rewrite (Cinv_involutive _ Hc).
  set (den := (RtoC (omega - omega_c) + mkC 0 (kappa / 2)
               - RtoC (g ^ 2) * (RtoC 1 * Cinv (RtoC d_m + mkC 0 (gamma_m / 2))))%C).
  assert (HA : re den = A).
  { unfold den, A, n_m, Cinv, Cnorm2. simpl. field.
    unfold n_m in Hn. nra. }
  assert (HB : im den = B).
  { unfold den, B, n_m, Cinv, Cnorm2. simpl. field.
    unfold n_m in Hn. nra. }
  assert (HBk : kappa / 2 <= B).
  { unfold B. apply Rle_trans with (kappa / 2 + 0); [lra|].
    apply Rplus_le_compat_l. apply Rmult_le_pos.
    - apply Rmult_le_pos; [nra | lra].
    - left. apply Rinv_0_lt_compat, Hn. }
  assert (Hden : 0 < Cnorm2 den).
  { apply Cnorm2_pos_im. rewrite HB. lra. }
  assert (HD : 0 < A * A + B * B).
  { unfold Cnorm2 in Hden. rewrite HA, HB in Hden. exact Hden. }
  split; [exact HD|]. split.
  - apply Rmult_le_pos; [|left; apply Rinv_0_lt_compat; exact HD].
    pose proof (Rle_0_sqr A) as HA2.
    pose proof (Rle_0_sqr (B - kappa)) as HB2.
    unfold Rsqr in HA2, HB2. lra.
  - rewrite (py_cdiv_Ok _ _ Hden). cbn [bind].
    rewrite Cmod_sqr, (transmission_norm den kappa Hden).
    unfold Cnorm2. rewrite HA, HB. reflexivity.
Qed.

End CavityTransmissionProperties.

Lemma topology_coupling_peak_witness :
  0.1 <> 0 /\
  exists v,
    CavityTransmission.topology_coupling 3 2 0.1 = Ok v /\
    0 <= v <= 1 /\
    (3 = 2 -> v = 1) /\
    CavityTransmission.topology_coupling 2 3 0.1 = Ok v.
Proof.
  assert (H : 0.1 <> 0) by lra.
  split; [exact H|].
  exact (topology_coupling_peak 3 2 0.1 H).
Defined.

(** * The cavity ring-down script *)

Lemma coupled_modes_energy (wc wm hk hg g : R) (a b : C) :
  2 * re (Cconj a * (- Ci * RtoC wc * a - RtoC hk * a - Ci * RtoC g * b)
          + Cconj b * (- Ci * RtoC wm * b - RtoC hg * b - Ci * RtoC g * a))%C
  = - (2 * hk) * Cnorm2 a - (2 * hg) * Cnorm2 b.
Proof.
  destruct a as [ar ai], b as [br bi]. unfold Cnorm2. simpl. ring.
Qed.

Section CavityRingdownProperties.
Import CavityRingdown.

(** X15: energy balance of the ring-down equations.  Along the right-hand
    side returned by [ringdown_dynamics], the rate of change of
    [|a|^2 + |b|^2], which is [2 Re (conj a * da_dt + conj b * db_dt)], is
    [- kappa |a|^2 - gamma |b|^2] whatever the coupling and the Chern
    numbers: the coupling only exchanges energy between the two modes, and
    the total decays at least at the rate [gamma] and at most at the rate
    [kappa]. *)
Theorem ringdown_energy_balance (t : R) (a b : C) (C_send C_recv g0 : R) :
  let dy := ringdown_dynamics t (a, b) C_send C_recv g0 in
  let rate := 2 * re (Cconj a * fst dy + Cconj b * snd dy)%C in
  rate = - kappa * Cnorm2 a - gamma * Cnorm2 b /\
  - kappa * (Cnorm2 a + Cnorm2 b) <= rate <= - gamma * (Cnorm2 a + Cnorm2 b).
Proof.
  intros dy rate.
  assert (Hrate : rate = - kappa * Cnorm2 a - gamma * Cnorm2 b).
  { unfold rate, dy, ringdown_dynamics. cbv zeta. cbn [fst snd].
    rewrite coupled_modes_energy. f_equal; f_equal; lra. }
  split; [exact Hrate|]. rewrite Hrate.
  pose proof (Cnorm2_nonneg a) as Ha. pose proof (Cnorm2_nonneg b) as Hb.
  unfold kappa, gamma. split; nra.
Qed.

End CavityRingdownProperties.

(** * The dynamics script *)

Lemma coupling_factors (alpha two r scale C1 C2 E B : R) :
  two <> 0 ->
  alpha / (4 * PI) * (2 * PI * ((C1 + C2) / two)) * E * B
  * (4 / 3 * PI * r ^ 3) * scale
  = (alpha / two * (2 / 3) * r ^ 3 * scale) * (PI * (C1 + C2) * E * B).
Proof. intros H. pose proof PI_RGT_0. field. split; lra. Qed.

Lemma axion_coupling_strength_value (C1 C2 E B : R) :
  FullSweep.axion_coupling_strength C1 C2 E B
  = 125 * PI / 411 * (C1 + C2) * E * B.
Proof.
  unfold FullSweep.axion_coupling_strength. cbv zeta.
  rewrite coupling_factors by lra.
  replace (1 / 137 / 2.0 * (2 / 3) * 0.5e-3 ^ 3 * 1e12) with (125 / 411)
    by lra.
  field.
Qed.

Section FullSweepProperties.
Import FullSweep.

(** X16: the axion coupling in closed form.  The factors of pi cancel and
    the sphere radius and unit scale combine to 125, so the coupling is
    [125 pi / 411] times [(C1 + C2) E B]: it depends on the two Chern numbers
    only through their sum, and is no larger for matched than for mismatched
    numbers of the same sum. *)
Theorem axion_coupling_strength_closed_form (C1 C2 E B : R) :
  axion_coupling_strength C1 C2 E B = 125 * PI / 411 * (C1 + C2) * E * B.
Proof. apply axion_coupling_strength_value. Qed.

Lemma py_int_floor (x : R) (k : Z) :
  (0 <= k)%Z -> IZR k <= x < IZR k + 1 -> py_int x = k.
Proof.
  intros Hk [Hlo Hhi]. unfold py_int.
  assert (H0 : 0 <= x).
  { apply Rle_trans with (IZR k); [apply IZR_le; exact Hk | exact Hlo]. }
  destruct (Rle_dec 0 x) as [_ | Hn]; [|contradiction].
  symmetry. apply Int_part_spec. lra.
Qed.

Lemma np_getitem_in_range (msg : list R) (i : Z) :
  (0 <= i < Z.of_nat (length msg))%Z ->
  np_getitem msg i = inr (nth (Z.to_nat i) msg 0) /\
  In (nth (Z.to_nat i) msg 0) msg.
Proof.
  intros [Hlo Hhi]. unfold np_getitem.
  destruct (Z.leb_spec 0 i) as [_ | H]; [|lia].
  destruct (Z.ltb_spec i (Z.of_nat (length msg))) as [_ | H]; [|lia].
  split; [reflexivity|]. apply nth_In. lia.
Qed.

Lemma py_mod_in_range (n m : Z) :
  (0 < m)%Z -> py_mod n m = inr (n mod m)%Z /\ (0 <= n mod m < m)%Z.
Proof.
  intros Hm. unfold py_mod.
  destruct (Z.eqb_spec m 0) as [H | _]; [lia|].
  split; [reflexivity | apply Z.mod_pos_bound; exact Hm].
Qed.

(** X17: [magnon_dynamics] with a non-empty message returns at every time,
    also a negative one: the bit index is reduced into the message, and the
    drive is half the selected bit times [sin (0.1 t)]. *)
Theorem magnon_dynamics_returns (msg : list R) (J_base C_send C_recv : R)
    (t phi_s phi_r : R) :
  msg <> [] ->
  exists bit,
    In bit msg /\
    magnon_dynamics msg J_base C_send C_recv t (phi_s, phi_r)
    = inr (-0.05 * phi_s + 0.5 * bit * sin (0.1 * t),
           -0.05 * phi_r
           + J_base * topo_factor C_send C_recv
             * axion_coupling_strength C_send C_recv 1e3 0.1
             * (phi_s - phi_r)).
Proof.
  intros Hmsg. unfold magnon_dynamics.
  assert (Hlen : (0 < Z.of_nat (length msg))%Z).
  { destruct msg; [contradiction | simpl length; lia]. }
  destruct (py_mod_in_range (py_int (t / 5)) _ Hlen) as [-> Hr].
  destruct (np_getitem_in_range msg _ Hr) as [-> Hin].
  eexists. split; [exact Hin|]. reflexivity.
Qed.

(** X18: the bit schedule of the drive.  During the [k]-th window of five
    time units, [5 k <= t < 5 (k + 1)] with [k >= 0], the drive uses bit
    [k mod len(message)]: each bit lasts five time units and the message
    repeats; the receiver is pulled towards the sender with the strength
    [J_base * topo_factor * axion_coupling_strength]. *)
Theorem magnon_dynamics_bit_schedule (msg : list R)
    (J_base C_send C_recv : R) (t phi_s phi_r : R) (k : Z) :
  msg <> [] ->
  (0 <= k)%Z ->
  5 * IZR k <= t < 5 * (IZR k + 1) ->
  magnon_dynamics msg J_base C_send C_recv t (phi_s, phi_r)
  = inr (-0.05 * phi_s
         + 0.5 * nth (Z.to_nat (k mod Z.of_nat (length msg))) msg 0
           * sin (0.1 * t),
         -0.05 * phi_r
         + J_base * topo_factor C_send C_recv
           * (125 * PI / 411 * (C_send + C_recv) * 1e3 * 0.1)
           * (phi_s - phi_r)).
Proof.
  intros Hmsg Hk Ht. unfold magnon_dynamics.
  assert (Hlen : (0 < Z.of_nat (length msg))%Z).
  { destruct msg; [contradiction | simpl length; lia]. }
  rewrite (py_int_floor (t / 5) k Hk) by lra.
  destruct (py_mod_in_range k _ Hlen) as [-> Hr].
  destruct (np_getitem_in_range msg _ Hr) as [-> _].
  cbv zeta. cbn [fst snd].
  rewrite axion_coupling_strength_value. reflexivity.
Qed.

(** a message without bits: the index computation divides by zero *)
Lemma magnon_dynamics_empty_message (J_base C_send C_recv t : R)
    (y : R * R) :
  magnon_dynamics [] J_base C_send C_recv t y = inl ZeroDivisionError.
Proof. reflexivity. Qed.

End FullSweepProperties.

Lemma magnon_dynamics_returns_witness :
  FullSweep.message <> [] /\
  exists bit,
    In bit FullSweep.message /\
    FullSweep.magnon_dynamics FullSweep.message 0.1 3 3 12 (0, 0)
    = inr (-0.05 * 0 + 0.5 * bit * sin (0.1 * 12),
           -0.05 * 0
           + 0.1 * FullSweep.topo_factor 3 3
             * FullSweep.axion_coupling_strength 3 3 1e3 0.1
             * (0 - 0)).
Proof.
  assert (H : FullSweep.message <> []) by discriminate.
  split; [exact H|].
  exact (magnon_dynamics_returns FullSweep.message 0.1 3 3 12 0 0 H).
Defined.

Lemma magnon_dynamics_bit_schedule_witness :
  FullSweep.message <> [] /\ (0 <= 7)%Z /\ 5 * IZR 7 <= 36 < 5 * (IZR 7 + 1) /\
  FullSweep.magnon_dynamics FullSweep.message 0.1 3 3 36 (0, 0)
  = inr (-0.05 * 0
         + 0.5 * nth (Z.to_nat (7 mod Z.of_nat (length FullSweep.message)))
                   FullSweep.message 0
           * sin (0.1 * 36),
         -0.05 * 0
         + 0.1 * FullSweep.topo_factor 3 3
           * (125 * PI / 411 * (3 + 3) * 1e3 * 0.1)
           * (0 - 0)).
Proof.
  assert (H : FullSweep.message <> []) by discriminate.
  assert (Hk : (0 <= 7)%Z) by (intros Hgt; discriminate Hgt).
  assert (Ht : 5 * IZR 7 <= 36 < 5 * (IZR 7 + 1)) by lra.
  split; [exact H|]. split; [exact Hk|]. split; [exact Ht|].
  exact (magnon_dynamics_bit_schedule FullSweep.message 0.1 3 3 36 0 0 7
           H Hk Ht).
Defined.

(** * The bandwidth script *)

(** ** The frequency axis *)

Lemma set_last_snoc (l : list R) (a x : R) :
  set_last (l ++ [a]) x = l ++ [x].
Proof.
  induction l as [|b l IH]; [reflexivity|].
  destruct l as [|c l'].
  - reflexivity.
  - change (set_last ((b :: c :: l') ++ [a]) x)
      with (b :: set_last ((c :: l') ++ [a]) x).
    rewrite IH. reflexivity.
Qed.

(** with at least two samples, [np.linspace] is the first [num - 1] points
    of the arithmetic progression followed by [stop] itself *)
Lemma linspace_shape (start stop : R) (num : Z) :
  (2 <= num)%Z ->
  np_linspace start stop num
  = Ok (map (fun i => INR i * ((stop - start) / IZR (num - 1)) + start)
          (seq 0 (Z.to_nat (num - 1))) ++ [stop]).
Proof.
  intros Hnum. unfold np_linspace.
  destruct (Z.ltb_spec num 0) as [Hneg | _]; [lia|].
  destruct (Z.ltb_spec 0 (num - 1)) as [_ | Hle]; [|lia].
  replace (Z.to_nat num) with (Datatypes.S (Z.to_nat (num - 1))) by lia.
  rewrite seq_S, map_app. cbn [map]. rewrite set_last_snoc. reflexivity.
Qed.

Lemma sorted_map_seq (f : nat -> R) (a n : nat) :
  (forall i j, (i <= j)%nat -> f i <= f j) ->
  StronglySorted Rle (map f (seq a n)).
Proof.
  intros Hf. revert a. induction n as [|n IH]; intros a; cbn [seq map].
  - constructor.
  - constructor; [apply IH|].
    apply Forall_forall. intros y Hy.
    apply in_map_iff in Hy. destruct Hy as [j [<- Hj]].
    apply in_seq in Hj. apply Hf. lia.
Qed.

Lemma sorted_snoc (l : list R) (x : R) :
  StronglySorted Rle l -> Forall (fun y => y <= x) l ->
  StronglySorted Rle (l ++ [x]).
Proof.
  induction 1 as [|a l Hs IH Ha]; intros Hx; cbn [app].
  - constructor; constructor.
  - inversion Hx as [|? ? Hax Hlx]; subst.
    constructor; [apply IH; exact Hlx|].
    apply Forall_app. split; [exact Ha | constructor; [exact Hax | constructor]].
Qed.

Lemma sorted_map (g : R -> R) (l : list R) :
  (forall x y, x <= y -> g x <= g y) ->
  StronglySorted Rle l -> StronglySorted Rle (map g l).
Proof.
  intros Hg. induction 1 as [|a l Hs IH Ha]; cbn [map]; constructor.
  - exact IH.
  - apply Forall_forall. intros y Hy.
    apply in_map_iff in Hy. destruct Hy as [x [<- Hx]].
    apply Hg. rewrite Forall_forall in Ha. apply Ha, Hx.
Qed.

(** the samples of [np.linspace] ascend from [start] to [stop] *)
Lemma linspace_sorted (start stop : R) (num : Z) :
  start <= stop -> (2 <= num)%Z ->
  exists vals,
    np_linspace start stop num = Ok vals /\
    length vals = Z.to_nat num /\
    StronglySorted Rle vals /\
    Forall (fun y => start <= y <= stop) vals.
Proof.
  intros Hle Hnum. rewrite (linspace_shape start stop num Hnum).
  eexists. split; [reflexivity|].
  set (m := Z.to_nat (num - 1)).
  assert (Hm : IZR (num - 1) = INR m).
  { unfold m. rewrite INR_IZR_INZ, Z2Nat.id by lia. reflexivity. }
  assert (Hmpos : 0 < INR m).
  { rewrite <- Hm. apply IZR_lt. lia. }
  rewrite Hm.
  set (step := (stop - start) / INR m).
  assert (Hstep : 0 <= step).
  { unfold step. apply Rmult_le_pos; [lra|].
    left. apply Rinv_0_lt_compat, Hmpos. }
  assert (Hfull : INR m * step = stop - start).
  { unfold step. field. lra. }
  assert (Hrange : Forall (fun y => start <= y <= stop)
                     (map (fun i => INR i * step + start) (seq 0 m))).
  { apply Forall_forall. intros y Hy.
    apply in_map_iff in Hy. destruct Hy as [i [<- Hi]].
    apply in_seq in Hi.
    assert (H0 : 0 <= INR i) by apply pos_INR.
    assert (H1 : INR i <= INR m) by (apply le_INR; lia).
    split; nra. }
  split; [|split].
  - rewrite length_app, length_map, length_seq. cbn [length]. unfold m. lia.
  - apply sorted_snoc.
    + apply sorted_map_seq. intros i j Hij.
      assert (H1 : INR i <= INR j) by (apply le_INR; exact Hij). nra.
    + eapply Forall_impl; [|exact Hrange]. cbv beta. intros y Hy. lra.
  - apply Forall_app. split; [exact Hrange|].
    constructor; [lra | constructor].
Qed.

Lemma Rpower_10_monotone (x y : R) : x <= y -> Rpower 10 x <= Rpower 10 y.
Proof. intros H. apply Rle_Rpower; lra. Qed.

Lemma Rpower_10_nat (n : nat) : Rpower 10 (INR n) = 10 ^ n.
Proof. apply Rpower_pow. lra. Qed.

(** [np.logspace(2, 7, 100)]: one hundred ascending frequencies between
    100 and 10^7 *)
Lemma logspace_frequencies :
  exists freqs,
    ThetaBandwidth.np_logspace 2 7 100 = Ok freqs /\
    length freqs = 100%nat /\
    StronglySorted Rle freqs /\
    Forall (fun f => 100 <= f <= 10 ^ 7) freqs.
Proof.
  destruct (linspace_sorted 2 7 100 ltac:(lra) ltac:(lia))
    as [vals [Hv [Hlen [Hs Hr]]]].
  unfold ThetaBandwidth.np_logspace. rewrite Hv. cbn [bind].
  eexists. split; [reflexivity|]. split; [|split].
  - rewrite length_map, Hlen. reflexivity.
  - apply sorted_map; [apply Rpower_10_monotone | exact Hs].
  - apply Forall_forall. intros f Hf.
    apply in_map_iff in Hf. destruct Hf as [y [<- Hy]].
    rewrite Forall_forall in Hr. specialize (Hr y Hy).
    replace 100 with (10 ^ 2) by lra.
    rewrite <- (Rpower_10_nat 2), <- (Rpower_10_nat 7).
    replace (INR 2) with 2 by (simpl; lra).
    replace (INR 7) with 7 by (simpl; lra).
    split; apply Rpower_10_monotone; lra.
Qed.

(** ** The boolean mask *)

Section ThetaBandwidthProperties.
Import ThetaBandwidth.

Lemma np_mask_In (xs vals : list R) (thr x : R) :
  In x (np_mask xs vals thr) -> In x xs.
Proof.
  revert vals. induction xs as [|a xs IH]; intros vals Hx; [contradiction|].
  destruct vals as [|v vals]; [contradiction|]. cbn [np_mask] in Hx.
  destruct (Rlt_dec thr v).
  - destruct Hx as [-> | Hx]; [left; reflexivity | right; eapply IH, Hx].
  - right. eapply IH, Hx.
Qed.

Lemma np_mask_sorted (xs vals : list R) (thr : R) :
  StronglySorted Rle xs -> StronglySorted Rle (np_mask xs vals thr).
Proof.
  intros Hs. revert vals.
  induction Hs as [|a xs Hs IH Ha]; intros vals; [constructor|].
  destruct vals as [|v vals]; [constructor|]. cbn [np_mask].
  destruct (Rlt_dec thr v); [|apply IH].
  constructor; [apply IH|].
  apply Forall_forall. intros y Hy. apply np_mask_In in Hy.
  rewrite Forall_forall in Ha. apply Ha, Hy.
Qed.

Lemma np_mask_nil_iff (xs vals : list R) (thr : R) :
  length xs = length vals ->
  (np_mask xs vals thr = [] <-> forall v, In v vals -> v <= thr).
Proof.
  revert vals. induction xs as [|a xs IH]; intros [|v vals] Hlen;
    try discriminate Hlen.
  - split; [intros _ v [] | reflexivity].
  - injection Hlen as Hlen. cbn [np_mask].
    destruct (Rlt_dec thr v) as [Hlt | Hnlt].
    + split; [discriminate|].
      intros H. specialize (H v (or_introl eq_refl)). lra.
    + rewrite (IH vals Hlen). split.
      * intros H w [<- | Hw]; [lra | apply H, Hw].
      * intros H w Hw. apply H. right. exact Hw.
Qed.

Lemma np_mask_above (vals : list R) (thr : R) :
  Forall (fun v => thr < v) (np_mask vals vals thr).
Proof.
  assert (H : forall xs vs, xs = vs -> Forall (fun v => thr < v) (np_mask xs vs thr)).
  { induction xs as [|a xs IH]; intros [|v vs] Heq; try constructor.
    injection Heq as -> ->. cbn [np_mask].
    destruct (Rlt_dec thr v); [constructor; [assumption|]|]; apply IH; reflexivity. }
  apply H. reflexivity.
Qed.

Lemma last_In (l : list R) : l <> [] -> In (last l 0) l.
Proof.
  induction l as [|a l IH]; [contradiction|]. intros _.
  destruct l as [|b l']; [left; reflexivity|].
  right. apply IH. discriminate.
Qed.

Lemma sorted_hd_last (l : list R) :
  StronglySorted Rle l -> l <> [] -> hd 0 l <= last l 0.
Proof.
  intros Hs Hne. destruct l as [|a l]; [contradiction|].
  inversion Hs as [|? ? _ Ha]; subst. cbn [hd].
  destruct l as [|b l']; [simpl; lra|].
  rewrite Forall_forall in Ha. apply Ha.
  change (last (a :: b :: l') 0) with (last (b :: l') 0).
  apply last_In. discriminate.
Qed.

(** ** The signal-to-noise ratio *)

Lemma snr_at_nonneg (T2 g f : R) : 0 < f -> 0 <= snr_at T2 g f.
Proof.
  intros Hf. unfold snr_at. cbv zeta.
  assert (Hn : 0 < k_B * T * f + 1e-30).
  { unfold k_B, T. nra. }
  apply Rmult_le_pos; [|left; apply Rinv_0_lt_compat, Hn].
  destruct (Rlt_dec 0.1 (f * T2)) as [Hc|]; [|lra].
  apply Rmult_le_pos; [apply Rmult_le_pos|].
  - apply pow2_ge_0.
  - unfold Rmin. destruct (Rle_dec (f * T2) 10); lra.
  - left. apply exp_pos.
Qed.

Lemma calculate_bandwidth_result (C thr : R) :
  exists freqs snrs bw f_max,
    calculate_bandwidth C thr = Ok (freqs, snrs, bw, f_max) /\
    length freqs = 100%nat /\ length snrs = 100%nat /\
    (forall f, In f freqs -> 100 <= f <= 10 ^ 7) /\
    (forall s, In s snrs -> 0 <= s) /\
    ((forall s, In s snrs -> s <= thr) -> bw = 0 /\ f_max = 0) /\
    ((exists s, In s snrs /\ thr < s) ->
       In f_max freqs /\ 0 <= bw <= f_max - 100).
Proof.
  destruct logspace_frequencies as [freqs [Hf [Hlen [Hs Hr]]]].
  unfold calculate_bandwidth. cbv zeta. rewrite Hf. cbn [bind].
  set (snrs := map (snr_at (T2_star C) (g_coupling C)) freqs).
  set (usable := np_mask freqs snrs thr).
  assert (Hlens : length freqs = length snrs).
  { unfold snrs. rewrite length_map. reflexivity. }
  rewrite Forall_forall in Hr.
  assert (Hnil : usable = [] <-> forall v, In v snrs -> v <= thr).
  { apply np_mask_nil_iff. exact Hlens. }
  assert (Hnonneg : forall s, In s snrs -> 0 <= s).
  { intros s Hin. unfold snrs in Hin. apply in_map_iff in Hin.
    destruct Hin as [f [<- Hin]]. apply snr_at_nonneg.
    specialize (Hr f Hin). lra. }
  destruct usable as [|u us] eqn:Hu.
  - cbn [length Nat.ltb Nat.leb].
    exists freqs, snrs, 0, 0.
    split; [reflexivity|]. split; [exact Hlen|].
    split; [rewrite <- Hlens; exact Hlen|].
    split; [exact Hr|]. split; [exact Hnonneg|]. split.
    + intros _. split; reflexivity.
    + intros [s [Hin Hgt]].
      assert (Hle : s <= thr) by (apply Hnil; [reflexivity | exact Hin]).
      lra.
  - replace (0 <? length (u :: us))%nat with true by reflexivity.
    exists freqs, snrs, (last (u :: us) 0 - hd 0 (u :: us)), (last (u :: us) 0).
    split; [reflexivity|]. split; [exact Hlen|].
    split; [rewrite <- Hlens; exact Hlen|].
    split; [exact Hr|]. split; [exact Hnonneg|]. split.
    + intros Hall. apply Hnil in Hall. discriminate Hall.
    + intros _.
      assert (Hsorted : StronglySorted Rle (u :: us)).
      { rewrite <- Hu. apply np_mask_sorted, Hs. }
      assert (Hlast : In (last (u :: us) 0) freqs).
      { apply (np_mask_In freqs snrs thr). fold usable. rewrite Hu.
        apply last_In. discriminate. }
      assert (Hhd : In u freqs).
      { apply (np_mask_In freqs snrs thr). fold usable. rewrite Hu.
        left. reflexivity. }
      pose proof (sorted_hd_last (u :: us) Hsorted ltac:(discriminate)) as Hhl.
      cbn [hd] in Hhl |- *.
      pose proof (Hr u Hhd) as Hu0.
      split; [exact Hlast | lra].
Qed.

(** X19: the shape of the result of [calculate_bandwidth].  For every Chern
    number and threshold it returns one hundred frequencies between 100 and
    10^7 and as many ratios, none negative.  If no ratio exceeds the
    threshold, bandwidth and [f_max] are both 0; otherwise [f_max] is one of
    the frequencies and the bandwidth lies between 0 and [f_max - 100]. *)
Theorem calculate_bandwidth_range (C thr : R) :
  exists freqs snrs bw f_max,
    calculate_bandwidth C thr = Ok (freqs, snrs, bw, f_max) /\
    length freqs = 100%nat /\ length snrs = 100%nat /\
    (forall f, In f freqs -> 100 <= f <= 10 ^ 7) /\
    (forall s, In s snrs -> 0 <= s) /\
    ((forall s, In s snrs -> s <= thr) -> bw = 0 /\ f_max = 0) /\
    ((exists s, In s snrs /\ thr < s) ->
       In f_max freqs /\ 0 <= bw <= f_max - 100).
Proof. apply calculate_bandwidth_result. Qed.

(** ** The bit rate *)

Lemma sum_above (l : list R) (c : R) :
  Forall (fun v => c < v) l -> c * INR (length l) <= fold_right Rplus 0 l.
Proof.
  induction 1 as [|a l Ha Hl IH].
  - simpl. lra.
  - change (length (a :: l)) with (Datatypes.S (length l)).
    rewrite S_INR. cbn [fold_right]. lra.
Qed.

Lemma np_mean_above (l : list R) (c : R) :
  l <> [] -> Forall (fun v => c < v) l -> c < np_mean l.
Proof.
  intros Hne Hall. destruct l as [|a l]; [contradiction|].
  inversion Hall as [|? ? Ha Hl]; subst.
  pose proof (sum_above l c Hl) as Hsum.
  unfold np_mean. change (length (a :: l)) with (Datatypes.S (length l)).
  rewrite S_INR. cbn [fold_right].
  assert (Hpos : 0 < INR (length l) + 1).
  { pose proof (pos_INR (length l)). lra. }
  apply Rmult_lt_reg_r with (INR (length l) + 1); [exact Hpos|].
  unfold Rdiv. rewrite Rmult_assoc, Rinv_l by lra. lra.
Qed.

Lemma np_log2_above_two (x : R) : 3 < x -> 2 < np_log2 (1 + x).
Proof.
  intros Hx. unfold np_log2.
  assert (H2 : 0 < ln 2).
  { rewrite <- ln_1. apply ln_increasing; lra. }
  assert (H4 : ln 4 = 2 * ln 2).
  { replace 4 with (2 * 2) by lra. rewrite ln_mult by lra. ring. }
  assert (Hln : ln 4 < ln (1 + x)) by (apply ln_increasing; lra).
  apply Rmult_lt_reg_r with (ln 2); [exact H2|].
  unfold Rdiv. rewrite Rmult_assoc, Rinv_l by lra. lra.
Qed.

(** X20: the estimated bit rate exceeds twice the bandwidth.
    [estimate_bit_rate] returns for every Chern number; with the bandwidth
    [bw] that [calculate_bandwidth] finds at the threshold 3, the rate is 0
    when [bw] is 0 and more than [2 bw] otherwise, since the ratios averaged
    all exceed 3. *)
Theorem estimate_bit_rate_above_twice_bandwidth (C : R) :
  exists freqs snrs bw f_max rate,
    calculate_bandwidth C 3.0 = Ok (freqs, snrs, bw, f_max) /\
    estimate_bit_rate C = Ok rate /\
    0 <= bw /\
    (bw = 0 -> rate = 0) /\
    (0 < bw -> 2 * bw < rate).
Proof.
  destruct (calculate_bandwidth_result C 3.0)
    as [freqs [snrs [bw [f_max [Hc [_ [_ [_ [_ [Hnone Hsome]]]]]]]]]].
  assert (Hmask : 0 < bw -> np_mask snrs snrs 3 <> []).
  { intros Hbw Hnil.
    pose proof (proj1 (np_mask_nil_iff snrs snrs 3 eq_refl) Hnil) as Hall.
    destruct Hnone as [H0 _]; [|lra].
    intros s Hs. specialize (Hall s Hs). lra. }
  assert (Hbw0 : 0 <= bw).
  { destruct (Rle_dec 0 bw) as [H | H]; [exact H|].
    destruct (np_mask snrs snrs 3) as [|m ms] eqn:Hm.
    - pose proof (proj1 (np_mask_nil_iff snrs snrs 3 eq_refl) Hm) as Hall.
      destruct Hnone as [H0 _]; [|lra].
      intros s Hs. specialize (Hall s Hs). lra.
    - assert (Hin : In m snrs).
      { apply (np_mask_In snrs snrs 3). rewrite Hm. left. reflexivity. }
      pose proof (np_mask_above snrs 3) as Hab. rewrite Hm in Hab.
      inversion Hab as [|? ? Hgt _]; subst.
      destruct Hsome as [_ Hb]; [|lra].
      exists m. split; [exact Hin | lra]. }
  unfold estimate_bit_rate. rewrite Hc. cbn [bind fst snd].
  destruct (Rlt_dec 0 bw) as [Hpos | Hnpos].
  - exists freqs, snrs, bw, f_max. eexists.
    split; [reflexivity|]. split; [reflexivity|].
    split; [exact Hbw0|]. split; [lra|]. intros _.
    pose proof (np_mean_above _ 3 (Hmask Hpos) (np_mask_above snrs 3)) as Hm.
    pose proof (np_log2_above_two _ Hm) as Hl. nra.
  - exists freqs, snrs, bw, f_max, 0.
    split; [reflexivity|]. split; [reflexivity|].
    split; [exact Hbw0|]. split; [reflexivity | lra].
Qed.

(** ** The modulation frequency *)

Lemma T2_star_value (C : R) : T2_star C = (C + 1) / 20000.
Proof. unfold T2_star. cbv zeta. lra. Qed.

(** X21: [optimal_frequency] in closed form, on whole Chern numbers.  It
    raises [ZeroDivisionError] exactly at [C = -1], where the coherence time
    vanishes; elsewhere it is [40000 / (C + 1)], four times the coherence
    limit [1 / (2 T2_star C)] it is plotted against. *)
Theorem optimal_frequency_closed_form (C : Z) :
  (C = (-1)%Z -> optimal_frequency (IZR C) = Raise ZeroDivisionError) /\
  (C <> (-1)%Z ->
     optimal_frequency (IZR C) = Ok (40000 / (IZR C + 1)) /\
     40000 / (IZR C + 1) = 4 * (1 / (2 * T2_star (IZR C)))).
Proof.
  unfold optimal_frequency, py_div. cbv zeta. rewrite T2_star_value.
  split.
  - intros ->.
    destruct (Req_dec_T ((-1 + 1) / 20000) 0) as [_ | H]; [reflexivity|].
    exfalso. apply H. lra.
  - intros HC.
    assert (HC' : IZR C <> -1).
    { intros H. apply HC. apply eq_IZR. exact H. }
    destruct (Req_dec_T ((IZR C + 1) / 20000) 0) as [H | _].
    + exfalso. apply HC'. lra.
    + split; [f_equal|]; field; lra.
Qed.

End ThetaBandwidthProperties.
